(** * OnigmoRegExEngine: the Scintilla search adapter on top of the Onigmo engine

    A shallow embedding of [_scionigmo/OnigmoRegExEngine.cxx]: the helper
    [replaceAll], the pattern translator [translateRegExpr], the template
    expander [convertReplExpr], and the two entry points [FindText] and
    [SubstituteByPosition] of class [OniguRegExEngine].

    Conventions.
    - A [std::string] is a [list ascii]; [s[i]] is [at_ s i], and [s[s.size()]]
      is the terminating NUL, as C++11 defines it.
    - Positions ([Sci::Position], [OnigPosition], [long]) are [Z]; pointers
      into the document are offsets from [docBegPtr].
    - A loop of the source is a function with a [fuel] argument bounding the
      number of iterations; [None] is "ran out of fuel", that is, the loop
      did not return within that many iterations.  A call that an exception
      leaves ([SubstituteByPosition] on a negative length) does not return
      either and is [None] as well.
    - The regex engine, the document and the code-page conversion are
      collaborators outside this file: they are records of functions. *)

From Stdlib Require Import ZArith Ascii String List Bool Lia.
Import ListNotations.

Local Open Scope Z_scope.

(** ** Strings *)

Definition str (s : string) : list ascii := list_ascii_of_string s.

Definition NUL : ascii := Ascii.zero.

(** [s[i]]: reading at [i = s.size()] yields the terminator. *)
Definition at_ (s : list ascii) (i : nat) : ascii := nth i s NUL.

(** The character code, as the comparisons of the source see it (the digit and
    letter ranges tested lie below 128, so the signedness of [char] is moot). *)
Definition code (c : ascii) : Z := Z.of_N (N_of_ascii c).

Definition ch (s : string) : ascii :=
  match s with String c _ => c | EmptyString => NUL end.

(** [s.substr(pos, n)] and [s.substr(pos)]. *)
Definition substr (s : list ascii) (pos n : nat) : list ascii := firstn n (skipn pos s).
Definition substr_from (s : list ascii) (pos : nat) : list ascii := skipn pos s.

Fixpoint prefixb (p s : list ascii) : bool :=
  match p, s with
  | [], _ => true
  | a :: p', b :: s' => Ascii.eqb a b && prefixb p' s'
  | _ :: _, [] => false
  end.

(** [a.compare(b) == 0]. *)
Fixpoint str_eqb (a b : list ascii) : bool :=
  match a, b with
  | [], [] => true
  | x :: a', y :: b' => Ascii.eqb x y && str_eqb a' b'
  | _, _ => false
  end.

(** [find_in from s pos]: first occurrence of [from] in the suffix [s] that
    starts at index [pos] of the whole string. *)
Fixpoint find_in (from s : list ascii) (pos : nat) : option nat :=
  if prefixb from s then Some pos
  else match s with
       | [] => None
       | _ :: s' => find_in from s' (S pos)
       end.

(** [source.find(from, pos)]; [None] is [std::string::npos]. *)
Definition find (source from : list ascii) (pos : nat) : option nat :=
  if (pos <=? length source)%nat then find_in from (skipn pos source) pos else None.

(** ** Option as the "did it return" monad *)

Definition bind {A B : Type} (m : option A) (k : A -> option B) : option B :=
  match m with Some a => k a | None => None end.

Notation "x <- m ;; k" := (bind m (fun x => k))
  (at level 61, m at next level, right associativity).
Notation "' p <- m ;; k" := (bind m (fun p => k))
  (at level 61, p pattern, m at next level, right associativity).

(** [for (i = i0; i < n; ++i) body], where [body] may itself advance [i]. *)
Fixpoint for_loop {A : Type} (fuel n : nat) (body : nat -> A -> nat * A)
    (i : nat) (acc : A) {struct fuel} : option A :=
  if (i <? n)%nat then
    match fuel with
    | O => None
    | S fuel' => let '(i', acc') := body i acc in for_loop fuel' n body (S i') acc'
    end
  else Some acc.

(** ** Some Helpers *)

Definition IsOctalDigit (c : ascii) : bool :=
  (code (ch "0") <=? code c) && (code c <=? code (ch "7")).

Definition GetHexDigit (c : ascii) : Z :=
  if (code (ch "0") <=? code c) && (code c <=? code (ch "9")) then code c - code (ch "0")
  else if (code (ch "A") <=? code c) && (code c <=? code (ch "F")) then code c - code (ch "A") + 10
  else if (code (ch "a") <=? code c) && (code c <=? code (ch "f")) then code c - code (ch "a") + 10
  else -1.

(** The [while] loop of [replaceAll]: one unit of fuel per occurrence found. *)
Fixpoint replaceAll_loop (fuel : nat) (source from to newString : list ascii)
    (lastPos : nat) {struct fuel} : option (list ascii) :=
  match find source from lastPos with
  | Some findPos =>
      match fuel with
      | O => None
      | S fuel' =>
          replaceAll_loop fuel' source from to
            (newString ++ substr source lastPos (findPos - lastPos) ++ to)
            (findPos + length from)
      end
  | None => Some (newString ++ substr_from source lastPos)
  end.

(** [replaceAll(source, from, to)]: the new value of [source]. *)
Definition replaceAll (source from to : list ascii) : option (list ascii) :=
  replaceAll_loop (S (length source)) source from to [] 0.

(** ** Constants of the headers *)

(** Modelled from the spec: the end-of-line modes of the document
    ([Scintilla.h] is not among the sources; the spec names the three modes
    LF, CR and CRLF, the values are Scintilla's). *)
Definition SC_EOL_CRLF : Z := 0.
Definition SC_EOL_CR : Z := 1.
Definition SC_EOL_LF : Z := 2.

(** Modelled from the spec: the engine's no-match sentinel ([onigmo.h] is not
    among the sources; the source comments that -1 stands for "not found"),
    and the value of an unset region slot. *)
Definition ONIG_MISMATCH : Z := -1.
Definition ONIG_REGION_NOTPOS : Z := -1.

(** The option bits of [onigmo.h] and the search flag of the editor, taken as
    parameters. *)
Record OnigOptions : Type := {
  ONIG_OPTION_DEFAULT : Z;
  ONIG_OPTION_NONE : Z;
  ONIG_OPTION_IGNORECASE : Z;
  ONIG_OPTION_EXTEND : Z;
  ONIG_OPTION_DOTALL : Z;
  ONIG_OPTION_NEGATE_SINGLELINE : Z;
  ONIG_OPTION_CAPTURE_GROUP : Z;
  ONIG_OPTION_NOTBOL : Z;
  ONIG_OPTION_NOTEOL : Z;
  ONIG_OPTION_NEWLINE_CRLF : Z;
  SCFIND_DOT_MATCH_ALL : Z
}.

(** [ONIG_OPTION_ON(options, regopt)] is [options |= regopt],
    [ONIG_OPTION_OFF(options, regopt)] is [options &= ~regopt]. *)
Definition ONIG_OPTION_ON (options regopt : Z) : Z := Z.lor options regopt.
Definition ONIG_OPTION_OFF (options regopt : Z) : Z := Z.land options (Z.lnot regopt).

(** ** OniguRegExEngine::translateRegExpr *)

(** Returns the new value of [regExprStr] and of [rxOptions]. *)
Definition translateRegExpr (H : OnigOptions) (regExprStr : list ascii)
    (wholeWord wordStart : bool) (eolMode : Z) (rxOptions : Z)
    : option (list ascii * Z) :=
  tmpStr <- (if wholeWord || wordStart then
               replaceAll
                 (str "\b" ++ regExprStr ++ (if wholeWord then str "\b" else []))
                 (str ".") (str "\w")
             else Some regExprStr) ;;
  (* Onigmo unsupported word boundary *)
  tmpStr <- replaceAll tmpStr (str "\<") (str "(?<!\w)(?=\w)") ;;
  tmpStr <- replaceAll tmpStr (str "\(?<!\w)(?=\w)") (str "\\<") ;;
  tmpStr <- replaceAll tmpStr (str "\>") (str "(?<=\w)(?!\w)") ;;
  tmpStr <- replaceAll tmpStr (str "\(?<=\w)(?!\w)") (str "\\>") ;;
  (* EOL modes *)
  if eolMode =? SC_EOL_LF then
    Some (tmpStr, ONIG_OPTION_OFF rxOptions (ONIG_OPTION_NEWLINE_CRLF H))
  else if eolMode =? SC_EOL_CR then
    tmpStr <- replaceAll tmpStr (str "$") (str "(?=\r)") ;;
    tmpStr <- replaceAll tmpStr (str "\(?=\r)") (str "\$") ;;
    Some (tmpStr, ONIG_OPTION_OFF rxOptions (ONIG_OPTION_NEWLINE_CRLF H))
  else if eolMode =? SC_EOL_CRLF then
    Some (tmpStr, ONIG_OPTION_ON rxOptions (ONIG_OPTION_NEWLINE_CRLF H))
  else Some (tmpStr, rxOptions).

(** The values of [onigmo.h] (Onigmo 6.1.3) and of the editor's flag, as one
    instance of [OnigOptions] for running the model. *)
Definition onigmo_h : OnigOptions := {|
  ONIG_OPTION_DEFAULT := 0;
  ONIG_OPTION_NONE := 0;
  ONIG_OPTION_IGNORECASE := 1;
  ONIG_OPTION_EXTEND := 2;
  ONIG_OPTION_DOTALL := 4;
  ONIG_OPTION_NEGATE_SINGLELINE := 64;
  ONIG_OPTION_CAPTURE_GROUP := 256;
  ONIG_OPTION_NOTBOL := 512;
  ONIG_OPTION_NOTEOL := 1024;
  ONIG_OPTION_NEWLINE_CRLF := 131072;
  SCFIND_DOT_MATCH_ALL := 268435456
|}.

(** ** OniguRegExEngine::convertReplExpr *)

Definition is_between (lo hi : string) (c : ascii) : bool :=
  (code (ch lo) <=? code c) && (code c <=? code (ch hi)).

(** [WideCharToMultiByte(CP_UTF8, 0, val, -1, buf, ARRAYSIZE(val), ...)] is a
    system call: the function [W] gives the bytes it leaves in the
    zero-initialised [buf] for the code unit [val]. *)
Fixpoint until_NUL (buf : list ascii) : list ascii :=
  match buf with
  | [] => []
  | c :: r => if Ascii.eqb c NUL then [] else c :: until_NUL r
  end.

(** Pushing [buf] onto [tmpStr]: the first byte unconditionally, then the
    bytes up to the next NUL. *)
Definition push_buf (buf : list ascii) : list ascii :=
  match buf with
  | [] => [NUL]
  | c :: r => c :: until_NUL r
  end.

(** The [case 'x': case 'u':] block; [i] is the index of the letter [c]. *)
Definition convert_hex (W : Z -> list ascii) (replStr : list ascii) (i : nat)
    (c : ascii) (tmpStr : list ascii) : nat * list ascii :=
  let bShort := Ascii.eqb c (ch "x") in
  let i := S i in
  let hex := GetHexDigit (at_ replStr i) in
  if 0 <=? hex then
    let i := S i in
    let val := hex in
    let hex := GetHexDigit (at_ replStr i) in
    let '(i, val) :=
      if 0 <=? hex then
        let i := S i in
        let val := val * 16 + hex in
        if negb bShort then
          let hex := GetHexDigit (at_ replStr i) in
          if 0 <=? hex then
            let i := S i in
            let val := val * 16 + hex in
            let hex := GetHexDigit (at_ replStr i) in
            if 0 <=? hex then (S i, val * 16 + hex) else (i, val)
          else (i, val)
        else (i, val)
      else (i, val) in
    if negb (val =? 0) then (i, tmpStr ++ push_buf (W val))
    else (i, tmpStr ++ [c]) (* unknown ctrl seq *)
  else (i, tmpStr ++ [c]). (* unknown ctrl seq *)

(** The body of the [for] loop at index [i]: the index it leaves (the loop
    then increments it) and the new [tmpStr]. *)
Definition convert_body (W : Z -> list ascii) (replStr : list ascii) (i : nat)
    (tmpStr : list ascii) : nat * list ascii :=
  let c := at_ replStr i in
  if Ascii.eqb c (ch "\") then
    let i := S i in
    let c := at_ replStr i in (* next char *)
    let tmpStr := if is_between "1" "9" c then tmpStr ++ [ch "$"] else tmpStr in
    if Ascii.eqb c (ch "a") then (i, tmpStr ++ [ascii_of_nat 7])
    else if Ascii.eqb c (ch "b") then (i, tmpStr ++ [ascii_of_nat 8])
    else if Ascii.eqb c (ch "f") then (i, tmpStr ++ [ascii_of_nat 12])
    else if Ascii.eqb c (ch "n") then (i, tmpStr ++ [ascii_of_nat 10])
    else if Ascii.eqb c (ch "r") then (i, tmpStr ++ [ascii_of_nat 13])
    else if Ascii.eqb c (ch "t") then (i, tmpStr ++ [ascii_of_nat 9])
    else if Ascii.eqb c (ch "v") then (i, tmpStr ++ [ascii_of_nat 11])
    else if Ascii.eqb c (ch "\") then (i, tmpStr ++ [ch "\"; ch "\"])
    else if Ascii.eqb c (ch "x") || Ascii.eqb c (ch "u") then
      convert_hex W replStr i c tmpStr
    else (i, tmpStr ++ [c]) (* unknown ctrl seq *)
  else (i, tmpStr ++ [c]).

(** The new value of [replStr]. *)
Definition convertReplExpr (W : Z -> list ascii) (replStr : list ascii)
    : option (list ascii) :=
  for_loop (length replStr) (length replStr) (convert_body W replStr) 0%nat [].

(** ** The collaborators *)

(** [OnigRegion]: the number of slots and the two arrays. *)
Record OnigRegion : Type := {
  num_regs : Z;
  beg : list Z;
  end_ : list Z
}.

(** Reading slot [n] of a region array (an unallocated slot reads as unset). *)
Definition slot (a : list Z) (n : Z) : Z := nth (Z.to_nat n) a ONIG_REGION_NOTPOS.

(** Modelled from the spec: [onig_region_init] and [onig_region_free(r, 0)]
    of the engine, which is not among the sources; both leave a region with
    no slots. *)
Definition onig_region_init : OnigRegion := {| num_regs := 0; beg := []; end_ := [] |}.
Definition onig_region_free (r : OnigRegion) : OnigRegion := onig_region_init.

(** The engine, as [FindText] consumes it.
    - [onig_new text options] gives the result code, the handle stored
      through the first argument and the error info (encoding and syntax are
      the fixed globals of the source).
    - [onig_search reg str start range option] searches the string [str]
      (from [docBegPtr] to [docSEndPtr]) and gives the result and the region
      it fills; [start] and [range] are offsets into [str].
    - [onig_error_code_to_str code einfo] gives the message. *)
Record OnigEngine : Type := {
  OnigRegex : Type;
  OnigErrorInfo : Type;
  onig_new : list ascii -> Z -> Z * option OnigRegex * OnigErrorInfo;
  onig_search : option OnigRegex -> list ascii -> Z -> Z -> Z -> Z * OnigRegion;
  onig_error_code_to_str : Z -> option OnigErrorInfo -> list ascii
}.

(** The document: its bytes, its end-of-line mode and the function that moves
    a position out of a multi-byte character. *)
Record Document : Type := {
  bytes : list ascii;
  eolMode : Z;
  MovePositionOutsideChar : Z -> Z -> bool -> Z
}.

Definition Length (doc : Document) : Z := Z.of_nat (length (bytes doc)).

(** The [len] bytes read through [doc->RangePointer(pos, len)]. *)
Definition RangePointer (doc : Document) (pos len : Z) : list ascii :=
  substr (bytes doc) (Z.to_nat pos) (Z.to_nat len).

(** ** class OniguRegExEngine *)

Record OniguRegExEngine (E : OnigEngine) : Type := {
  m_RegExprStrg : list ascii;
  m_CmplOptions : Z;
  m_RegExpr : option (OnigRegex E);
  m_Region : OnigRegion;
  m_ErrorInfo : list ascii;
  m_MatchPos : Z;
  m_MatchLen : Z;
  m_SubstBuffer : list ascii
}.

Arguments m_RegExprStrg {E} _.
Arguments m_CmplOptions {E} _.
Arguments m_RegExpr {E} _.
Arguments m_Region {E} _.
Arguments m_ErrorInfo {E} _.
Arguments m_MatchPos {E} _.
Arguments m_MatchLen {E} _.
Arguments m_SubstBuffer {E} _.

(** The constructor. *)
Definition new_OniguRegExEngine (H : OnigOptions) (E : OnigEngine) : OniguRegExEngine E := {|
  m_RegExprStrg := [];
  m_CmplOptions := ONIG_OPTION_DEFAULT H;
  m_RegExpr := None;
  m_Region := onig_region_init;
  m_ErrorInfo := [];
  m_MatchPos := ONIG_MISMATCH;
  m_MatchLen := 0;
  m_SubstBuffer := []
|}.

Definition set_match {E} (st : OniguRegExEngine E) (pos len : Z) : OniguRegExEngine E := {|
  m_RegExprStrg := m_RegExprStrg st; m_CmplOptions := m_CmplOptions st;
  m_RegExpr := m_RegExpr st; m_Region := m_Region st; m_ErrorInfo := m_ErrorInfo st;
  m_MatchPos := pos; m_MatchLen := len; m_SubstBuffer := m_SubstBuffer st |}.

Definition set_Region {E} (st : OniguRegExEngine E) (r : OnigRegion) : OniguRegExEngine E := {|
  m_RegExprStrg := m_RegExprStrg st; m_CmplOptions := m_CmplOptions st;
  m_RegExpr := m_RegExpr st; m_Region := r; m_ErrorInfo := m_ErrorInfo st;
  m_MatchPos := m_MatchPos st; m_MatchLen := m_MatchLen st;
  m_SubstBuffer := m_SubstBuffer st |}.

Definition set_ErrorInfo {E} (st : OniguRegExEngine E) (msg : list ascii) : OniguRegExEngine E := {|
  m_RegExprStrg := m_RegExprStrg st; m_CmplOptions := m_CmplOptions st;
  m_RegExpr := m_RegExpr st; m_Region := m_Region st; m_ErrorInfo := msg;
  m_MatchPos := m_MatchPos st; m_MatchLen := m_MatchLen st;
  m_SubstBuffer := m_SubstBuffer st |}.

Definition set_RegExpr {E} (st : OniguRegExEngine E) (r : option (OnigRegex E)) : OniguRegExEngine E := {|
  m_RegExprStrg := m_RegExprStrg st; m_CmplOptions := m_CmplOptions st;
  m_RegExpr := r; m_Region := m_Region st; m_ErrorInfo := m_ErrorInfo st;
  m_MatchPos := m_MatchPos st; m_MatchLen := m_MatchLen st;
  m_SubstBuffer := m_SubstBuffer st |}.

Definition set_cache {E} (st : OniguRegExEngine E) (text : list ascii) (options : Z) : OniguRegExEngine E := {|
  m_RegExprStrg := text; m_CmplOptions := options;
  m_RegExpr := m_RegExpr st; m_Region := m_Region st; m_ErrorInfo := m_ErrorInfo st;
  m_MatchPos := m_MatchPos st; m_MatchLen := m_MatchLen st;
  m_SubstBuffer := m_SubstBuffer st |}.

Definition set_SubstBuffer {E} (st : OniguRegExEngine E) (b : list ascii) : OniguRegExEngine E := {|
  m_RegExprStrg := m_RegExprStrg st; m_CmplOptions := m_CmplOptions st;
  m_RegExpr := m_RegExpr st; m_Region := m_Region st; m_ErrorInfo := m_ErrorInfo st;
  m_MatchPos := m_MatchPos st; m_MatchLen := m_MatchLen st;
  m_SubstBuffer := b |}.

(** ** OniguRegExEngine::FindText *)

(** The [if (bReCompile)] block: [inl] continues with the search, [inr] is the
    state at [return -2]. *)
Definition recompile {E : OnigEngine} (st : OniguRegExEngine E)
    (sRegExprStrg : list ascii) (onigmoOptions : Z)
    : OniguRegExEngine E + OniguRegExEngine E :=
  let st := set_cache st sRegExprStrg onigmoOptions in
  let st := set_ErrorInfo st [] in
  let st := set_Region st (onig_region_free (m_Region st)) in
  let '(res, reg, einfo) := onig_new E (m_RegExprStrg st) (m_CmplOptions st) in
  let st := set_RegExpr st reg in
  if negb (res =? 0) then
    inr (set_ErrorInfo st (onig_error_code_to_str E res (Some einfo)))
  else inl (set_Region st onig_region_init).

(** The [while] loop that looks for the last occurrence in the range. *)
Fixpoint findprevious_loop {E : OnigEngine} (fuel : nat) (st : OniguRegExEngine E)
    (docBytes : list ascii) (rangeEndPtr onigmoOptions result rangeBegPtr : Z)
    {struct fuel} : option (OniguRegExEngine E) :=
  if (0 <=? result) && (rangeBegPtr <=? rangeEndPtr) then
    match fuel with
    | O => None
    | S fuel' =>
        let st := set_match st result (slot (end_ (m_Region st)) 0 - result) in
        let rangeBegPtr := m_MatchPos st + Z.max 1 (m_MatchLen st) in
        let '(result, region) :=
          onig_search E (m_RegExpr st) docBytes rangeBegPtr rangeEndPtr onigmoOptions in
        findprevious_loop fuel' (set_Region st region) docBytes rangeEndPtr
          onigmoOptions result rangeBegPtr
    end
  else Some st.

(** From the reset of the match state to the end of [FindText]: the value
    returned, the value left in [*length] and the state. *)
Definition search_range {E : OnigEngine} (fuel : nat) (st : OniguRegExEngine E)
    (doc : Document) (rangeBeg rangeEnd : Z) (findprevious : bool)
    (onigmoOptions length : Z) : option (Z * Z * OniguRegExEngine E) :=
  let st := set_match st ONIG_MISMATCH 0 in (* not found *)
  let '(result, region) :=
    onig_search E (m_RegExpr st) (bytes doc) rangeBeg rangeEnd onigmoOptions in
  let st := set_Region st region in
  if result <? ONIG_MISMATCH then
    Some (-3, length, set_ErrorInfo st (onig_error_code_to_str E result None))
  else
    st <- (if findprevious then (* search for last occurrence in range *)
             findprevious_loop fuel st (bytes doc) rangeEnd onigmoOptions result rangeBeg
           else if (0 <=? result) && (rangeBeg <=? rangeEnd) then
             Some (set_match st result (slot (end_ (m_Region st)) 0 - result))
           else Some st) ;;
    Some (m_MatchPos st, m_MatchLen st, st).

(** The engine options of a search: the fixed ones, then the dynamic ones. *)
Definition search_options (H : OnigOptions) (searchFlags : Z) (caseSensitive : bool)
    (rangeBeg rangeEnd docLen : Z) : Z :=
  (* fixed options *)
  let onigmoOptions := ONIG_OPTION_DEFAULT H in
  let onigmoOptions := ONIG_OPTION_OFF onigmoOptions (ONIG_OPTION_EXTEND H) in
  let onigmoOptions :=
    if negb (Z.land searchFlags (SCFIND_DOT_MATCH_ALL H) =? 0)
    then ONIG_OPTION_ON onigmoOptions (ONIG_OPTION_DOTALL H)
    else ONIG_OPTION_OFF onigmoOptions (ONIG_OPTION_DOTALL H) in
  let onigmoOptions := ONIG_OPTION_ON onigmoOptions (ONIG_OPTION_NEGATE_SINGLELINE H) in
  let onigmoOptions := ONIG_OPTION_ON onigmoOptions (ONIG_OPTION_CAPTURE_GROUP H) in
  (* dynamic options *)
  let onigmoOptions := ONIG_OPTION_ON onigmoOptions
    (if caseSensitive then ONIG_OPTION_NONE H else ONIG_OPTION_IGNORECASE H) in
  let onigmoOptions := ONIG_OPTION_ON onigmoOptions
    (if negb (rangeBeg =? 0) then ONIG_OPTION_NOTBOL H else ONIG_OPTION_NONE H) in
  ONIG_OPTION_ON onigmoOptions
    (if negb (rangeEnd =? docLen) then ONIG_OPTION_NOTEOL H else ONIG_OPTION_NONE H).

Definition bReCompile {E : OnigEngine} (st : OniguRegExEngine E)
    (sRegExprStrg : list ascii) (onigmoOptions : Z) : bool :=
  match m_RegExpr st with None => true | Some _ => false end
  || negb (m_CmplOptions st =? onigmoOptions)
  || negb (str_eqb (m_RegExprStrg st) sRegExprStrg).

(** The range of a search: [rangeBeg], [rangeEnd] and [findprevious]. *)
Definition search_bounds (doc : Document) (minPos maxPos : Z) : Z * Z * bool :=
  (* Range endpoints should not be inside DBCS characters, but just in case, move them. *)
  let minPos := MovePositionOutsideChar doc minPos 1 false in
  let maxPos := MovePositionOutsideChar doc maxPos 1 false in
  let findprevious := maxPos <? minPos in
  let rangeBeg := if findprevious then maxPos else minPos in
  let rangeEnd := if findprevious then minPos else maxPos in
  (rangeBeg, rangeEnd, findprevious).

(** [pattern] is [None] for a null pointer, otherwise the characters before
    the terminator; [length] is the value of [*length] on entry.  The result
    is the value returned, the value of [*length] on exit and the state. *)
Definition FindText (H : OnigOptions) {E : OnigEngine} (fuel : nat)
    (st : OniguRegExEngine E) (doc : Document) (minPos maxPos : Z)
    (pattern : option (list ascii)) (caseSensitive word wordStart : bool)
    (searchFlags : Z) (length : Z) : option (Z * Z * OniguRegExEngine E) :=
  match pattern with
  | None | Some [] => Some (-1, 0, st)
  | Some pattern =>
      let docLen := Length doc in
      let '(rangeBeg, rangeEnd, findprevious) := search_bounds doc minPos maxPos in
      let onigmoOptions :=
        search_options H searchFlags caseSensitive rangeBeg rangeEnd docLen in
      '(sRegExprStrg, onigmoOptions) <-
        translateRegExpr H pattern word wordStart (eolMode doc) onigmoOptions ;;
      match (if bReCompile st sRegExprStrg onigmoOptions
             then recompile st sRegExprStrg onigmoOptions else inl st) with
      | inr st => Some (-2, length, st) (* -2 is used here for invalid regex *)
      | inl st =>
          search_range fuel st doc rangeBeg rangeEnd findprevious onigmoOptions length
      end
  end.

(** ** OniguRegExEngine::SubstituteByPosition *)

(** The body of the [for] loop at index [j]: the index it leaves (the loop
    then increments it) and the new [m_SubstBuffer]. *)
Definition subst_body (doc : Document) (region : OnigRegion)
    (rawReplStrg : list ascii) (j : nat) (buf : list ascii) : nat * list ascii :=
  let c := at_ rawReplStrg j in
  if Ascii.eqb c (ch "$") || Ascii.eqb c (ch "\") then
    let n := at_ rawReplStrg (S j) in
    if is_between "0" "9" n then
      let grpNum := code n - code (ch "0") in
      let buf :=
        if grpNum <? num_regs region then
          let rBeg := slot (beg region) grpNum in
          let len := slot (end_ region) grpNum - rBeg in
          buf ++ RangePointer doc rBeg len
        else buf in
      (S j, buf)
    else if Ascii.eqb c (ch "\") then (S j, buf ++ [ch "\"])
    else (j, buf ++ [c])
  else (j, buf ++ [c]).

(** [text] with [length] (the value of [*length] on entry) is the template:
    [text] holds the characters at the pointer, and [std::string(text,
    *length)] takes the first [*length] of them (the pointer must give at
    least that many, or the constructor reads past them).  The result is the pointer returned ([None] for [nullptr], otherwise the
    contents of [m_SubstBuffer]), the value of [*length] on exit and the
    state.  The call does not return (the outer [None]) when [*length] is
    negative and a match is stored: the count of [std::string(text, *length)]
    is a [size_t], the negative value converts to one beyond [max_size()] and
    the constructor throws [std::length_error], which nothing in
    [SubstituteByPosition] catches; no member has been written by then. *)
Definition SubstituteByPosition {E : OnigEngine} (W : Z -> list ascii)
    (st : OniguRegExEngine E) (doc : Document) (text : list ascii) (length : Z)
    : option (option (list ascii) * Z * OniguRegExEngine E) :=
  if m_MatchPos st <? 0 then Some (None, -1, st)
  else if length <? 0 then None (* std::string(text, *length) throws *)
  else
    rawReplStrg <- convertReplExpr W (firstn (Z.to_nat length) text) ;;
    let st := set_SubstBuffer st [] in
    buf <- for_loop (List.length rawReplStrg) (List.length rawReplStrg)
             (subst_body doc (m_Region st) rawReplStrg) 0%nat (m_SubstBuffer st) ;;
    let st := set_SubstBuffer st buf in
    Some (Some (m_SubstBuffer st), Z.of_nat (List.length (m_SubstBuffer st)), st).

(** ** A reference engine for literal patterns *)

(** Modelled from the spec: the engine collaborator ("compile pattern to a
    handle; search the handle over a byte range, giving the match region"),
    which is not among the sources, for the patterns that contain no
    metacharacter.  Such a pattern matches exactly its own text (up to ASCII
    case when [ONIG_OPTION_IGNORECASE] is set).  A forward search
    ([start < range]) gives the least offset in [start, range) at which the
    pattern occurs; a backward search gives the greatest such offset in
    [range, start].  A pattern with an opening parenthesis and no closing one
    is the engine's "end pattern with unmatched parenthesis" error; any other
    pattern with a metacharacter is outside this fragment and is refused. *)
Record lit_regex : Type := { lit_text : list ascii; lit_ignorecase : bool }.

Definition ONIGERR_END_PATTERN_WITH_UNMATCHED_PARENTHESIS : Z := -117.
Definition ONIGERR_INVALID_ARGUMENT : Z := -30.

Definition lit_meta (c : ascii) : bool :=
  existsb (Ascii.eqb c) (str "\()[]{}.*+?^$|").

Definition lit_new (H : OnigOptions) (pattern : list ascii) (options : Z)
    : Z * option lit_regex * unit :=
  if existsb (Ascii.eqb (ch "(")) pattern && negb (existsb (Ascii.eqb (ch ")")) pattern)
  then (ONIGERR_END_PATTERN_WITH_UNMATCHED_PARENTHESIS, None, tt)
  else if existsb lit_meta pattern then (ONIGERR_INVALID_ARGUMENT, None, tt)
  else (0, Some {| lit_text := pattern;
                   lit_ignorecase := negb (Z.land options (ONIG_OPTION_IGNORECASE H) =? 0) |}, tt).

Definition lit_fold (ic : bool) (c : ascii) : ascii :=
  if ic && is_between "A" "Z" c then ascii_of_N (N_of_ascii c + 32) else c.

Fixpoint lit_here (ic : bool) (p s : list ascii) : bool :=
  match p, s with
  | [], _ => true
  | a :: p', b :: s' => Ascii.eqb (lit_fold ic a) (lit_fold ic b) && lit_here ic p' s'
  | _ :: _, [] => false
  end.

Definition lit_at (re : lit_regex) (s : list ascii) (p : Z) : bool :=
  (0 <=? p) && (p <=? Z.of_nat (length s))
  && lit_here (lit_ignorecase re) (lit_text re) (skipn (Z.to_nat p) s).

(** The offsets [a], [a+1], ..., [b-1]. *)
Definition offsets (a b : Z) : list Z :=
  map (fun k => a + Z.of_nat k) (seq 0 (Z.to_nat (b - a))).

Definition lit_search (reg : option lit_regex) (s : list ascii)
    (start range options : Z) : Z * OnigRegion :=
  match reg with
  | None => (ONIGERR_INVALID_ARGUMENT, onig_region_init)
  | Some re =>
      let cleared := {| num_regs := 1; beg := [ONIG_REGION_NOTPOS];
                        end_ := [ONIG_REGION_NOTPOS] |} in
      if (Z.of_nat (length s) <? start) || (start <? 0) then (ONIG_MISMATCH, cleared)
      else
        match (if start <? range then List.find (lit_at re s) (offsets start range)
               else List.find (lit_at re s) (rev (offsets range (start + 1)))) with
        | Some p =>
            (p, {| num_regs := 1; beg := [p];
                   end_ := [p + Z.of_nat (length (lit_text re))] |})
        | None => (ONIG_MISMATCH, cleared)
        end
  end.

Definition lit_error_code_to_str (code : Z) (einfo : option unit) : list ascii :=
  if code =? ONIGERR_END_PATTERN_WITH_UNMATCHED_PARENTHESIS
  then str "end pattern with unmatched parenthesis"
  else if code =? ONIGERR_INVALID_ARGUMENT then str "invalid argument"
  else str "undefined error code".

Definition literal_engine (H : OnigOptions) : OnigEngine := {|
  OnigRegex := lit_regex;
  OnigErrorInfo := unit;
  onig_new := lit_new H;
  onig_search := lit_search;
  onig_error_code_to_str := lit_error_code_to_str
|}.

(** A document in a single-byte encoding: no position is inside a character,
    positions are clamped to the document. *)
Definition plain_document (text : string) (eol : Z) : Document := {|
  bytes := str text;
  eolMode := eol;
  MovePositionOutsideChar := fun pos _ _ =>
    Z.max 0 (Z.min pos (Z.of_nat (length (str text))))
|}.

(** Code units below 128 convert to one byte; for the others the two-byte
    buffer is too small and the call leaves it as it was. *)
Definition utf8_two_bytes (val : Z) : list ascii :=
  if val <? 128 then [ascii_of_N (Z.to_N val)] else [].

(** A fresh instance over the reference engine, and a small document. *)
Definition fresh_instance : OniguRegExEngine (literal_engine onigmo_h) :=
  new_OniguRegExEngine onigmo_h (literal_engine onigmo_h).

Definition demo_doc : Document := plain_document "xx foo foo yy" SC_EOL_LF.

(** The state left by a forward search for [foo] in [demo_doc], and the one
    left by a search for a word the document does not contain. *)
Definition after_find (pattern : string) : OniguRegExEngine (literal_engine onigmo_h) :=
  match FindText onigmo_h 0 fresh_instance demo_doc 0 13 (Some (str pattern))
          true false false 0 0 with
  | Some (_, _, st) => st
  | None => fresh_instance
  end.

(** ** The rewriting of a pattern, as a list of rules *)

(** [Rewritten from to s out]: [out] is [s] with the occurrences of [from],
    taken from left to right without overlap, replaced by [to]. *)
Inductive Rewritten (from to : list ascii) : list ascii -> list ascii -> Prop :=
| Rewritten_nil : Rewritten from to [] []
| Rewritten_hit : forall rest out,
    Rewritten from to rest out -> Rewritten from to (from ++ rest) (to ++ out)
| Rewritten_skip : forall c s out,
    prefixb from (c :: s) = false ->
    Rewritten from to s out -> Rewritten from to (c :: s) (c :: out).

(** The calls of [replaceAll] that [translateRegExpr] makes, in order, as
    pairs of [from] and [to]. *)
Definition word_rules : list (list ascii * list ascii) :=
  [ (str ".", str "\w") ].

Definition boundary_rules : list (list ascii * list ascii) :=
  [ (str "\<", str "(?<!\w)(?=\w)");
    (str "\(?<!\w)(?=\w)", str "\\<");
    (str "\>", str "(?<=\w)(?!\w)");
    (str "\(?<=\w)(?!\w)", str "\\>") ].

Definition cr_rules : list (list ascii * list ascii) :=
  [ (str "$", str "(?=\r)");
    (str "\(?=\r)", str "\$") ].

Definition rewrite_rules (word : bool) (eolMode : Z) : list (list ascii * list ascii) :=
  (if word then word_rules else [])
  ++ boundary_rules
  ++ (if eolMode =? SC_EOL_CR then cr_rules else []).

Fixpoint apply_rules (rules : list (list ascii * list ascii)) (s : list ascii)
    : option (list ascii) :=
  match rules with
  | [] => Some s
  | (from, to) :: rules' => s' <- replaceAll s from to ;; apply_rules rules' s'
  end.

(** What [translateRegExpr] puts before and after the pattern. *)
Definition word_prefix (wholeWord wordStart : bool) : list ascii :=
  if wholeWord || wordStart then str "\b" else [].
Definition word_suffix (wholeWord wordStart : bool) : list ascii :=
  if wholeWord then str "\b" else [].

(** The options [translateRegExpr] leaves. *)
Definition eol_options (H : OnigOptions) (eolMode rxOptions : Z) : Z :=
  if (eolMode =? SC_EOL_LF) || (eolMode =? SC_EOL_CR)
  then ONIG_OPTION_OFF rxOptions (ONIG_OPTION_NEWLINE_CRLF H)
  else if eolMode =? SC_EOL_CRLF
  then ONIG_OPTION_ON rxOptions (ONIG_OPTION_NEWLINE_CRLF H)
  else rxOptions.

Definition backslash : ascii := ch "\".

(** The last character of [s] is a backslash. *)
Definition ends_with_backslash (s : list ascii) : bool :=
  match rev s with
  | c :: _ => Ascii.eqb c backslash
  | [] => false
  end.

(** Two strings agree as far as both go. *)
Definition compat (p t : list ascii) : bool := prefixb p t || prefixb t p.

(** The numbers [k] of characters of [from], [0 < k < length from], that an
    occurrence of [from] may have before a text that starts with [tok]. *)
Definition dangerous (from tok : list ascii) : list nat :=
  filter (fun k => compat (skipn k from) tok) (seq 1 (length from - 1)).

(** No occurrence of [from] can start inside [tok] and end after it. *)
Definition free_right (from tok : list ascii) : bool :=
  forallb (fun k => negb (compat from (skipn (length tok - k) tok)))
          (seq 1 (Nat.min (length from - 1) (length tok))).

(** [tok] goes through [rules] untouched by its neighbours: at each rule no
    occurrence of [from] can overlap the current form of the token from
    either side.  With [nobs] the text before the token is known not to end
    in a backslash, and an occurrence that would start with that one
    backslash is ruled out as well. *)
Fixpoint token_splits (nobs : bool) (rules : list (list ascii * list ascii))
    (tok : list ascii) : bool :=
  match rules with
  | [] => true
  | (from, to) :: rules' =>
      match from, replaceAll tok from to with
      | f :: _, Some tok' =>
          free_right from tok
          && (match dangerous from tok with
              | [] => true
              | [1%nat] => nobs && Ascii.eqb f backslash
              | _ => false
              end)
          && (negb nobs || (negb (ends_with_backslash to)
                            && match to with [] => false | _ => true end))
          && token_splits nobs rules' tok'
      | _, _ => false
      end
  end.

(** An occurrence of [from] in [u ++ v] that starts in [u] and ends in [v]. *)
Definition straddle (from u v : list ascii) : Prop :=
  exists k, (0 < k < length from)%nat /\ (k <= length u)%nat
            /\ prefixb from (skipn (length u - k) u ++ v) = true.

(** What the first rule of the word modes makes of one character. *)
Definition dot_to_word (c : ascii) : list ascii :=
  if Ascii.eqb c (ch ".") then str "\w" else [c].

(** ** What the searches assume of the engine *)

(** A search that starts at [s], with [start <= range], never reports a hit
    before [s]. *)
Definition hits_after_start (E : OnigEngine) (reg : option (OnigRegex E))
    (docBytes : list ascii) (options lo hi : Z) : Prop :=
  forall s, lo <= s <= hi ->
    0 <= fst (onig_search E reg docBytes s hi options) ->
    s <= fst (onig_search E reg docBytes s hi options).

(** The pattern matches at [p]: a search that starts at [p] hits at [p]. *)
Definition hit (E : OnigEngine) (reg : option (OnigRegex E))
    (docBytes : list ascii) (options hi p : Z) : Prop :=
  fst (onig_search E reg docBytes p hi options) = p.

(** The offsets at which a search that starts at [s] and is bounded by [hi]
    tries the pattern: those of [s, hi), and [s] itself when the search starts
    at the bound ([start = range], which the engine treats as a backward
    search over the one offset [start]). *)
Definition reach (s hi p : Z) : Prop := s <= p /\ (p < hi \/ p = s).

Definition reach_offsets (s hi : Z) : list Z :=
  if s <? hi then offsets s hi else [s].

(** A search from [s] up to [hi] reports the leftmost match among the offsets
    it tries, with the end that match has when searched from its own start,
    or reports no match when there is none. *)
Definition leftmost_search (E : OnigEngine) (reg : option (OnigRegex E))
    (docBytes : list ascii) (options lo hi : Z) : Prop :=
  forall s, lo <= s <= hi ->
    let r := fst (onig_search E reg docBytes s hi options) in
    (r = ONIG_MISMATCH
     /\ forall p, reach s hi p -> ~ hit E reg docBytes options hi p)
    \/ (reach s hi r
        /\ hit E reg docBytes options hi r
        /\ r <= slot (end_ (snd (onig_search E reg docBytes s hi options))) 0
        /\ slot (end_ (snd (onig_search E reg docBytes r hi options))) 0
           = slot (end_ (snd (onig_search E reg docBytes s hi options))) 0
        /\ forall p, s <= p < r -> ~ hit E reg docBytes options hi p).

(** The same, as a check over the offsets of the range. *)
Definition leftmost_searchb (E : OnigEngine) (reg : option (OnigRegex E))
    (docBytes : list ascii) (options lo hi : Z) : bool :=
  let search := fun s => onig_search E reg docBytes s hi options in
  let hitb := fun p => fst (search p) =? p in
  forallb
    (fun s =>
       let r := fst (search s) in
       ((r =? ONIG_MISMATCH) && forallb (fun p => negb (hitb p)) (reach_offsets s hi))
       || ((s <=? r) && ((r <? hi) || (r =? s)) && hitb r
           && (r <=? slot (end_ (snd (search s))) 0)
           && (slot (end_ (snd (search r))) 0 =? slot (end_ (snd (search s))) 0)
           && forallb (fun p => negb (hitb p)) (offsets s r)))
    (offsets lo (hi + 1)).

(** The length of the match at [p]: the end that the region of a search from
    [p] gives, less [p]. *)
Definition hit_length (E : OnigEngine) (reg : option (OnigRegex E))
    (docBytes : list ascii) (options hi p : Z) : Z :=
  slot (end_ (snd (onig_search E reg docBytes p hi options))) 0 - p.

(** [p] is the first offset, of those a search from [s] tries, at which the
    pattern matches. *)
Definition first_hit (E : OnigEngine) (reg : option (OnigRegex E))
    (docBytes : list ascii) (options hi s p : Z) : Prop :=
  reach s hi p /\ hit E reg docBytes options hi p
  /\ forall q, s <= q < p -> ~ hit E reg docBytes options hi q.

(** Where a hit at [p] lets the scan resume. *)
Definition resume (E : OnigEngine) (reg : option (OnigRegex E))
    (docBytes : list ascii) (options hi p : Z) : Z :=
  p + Z.max 1 (hit_length E reg docBytes options hi p).

(** [scan ... hi b p]: the scan of the matches from left to right that starts
    at the bound [b], takes the first match at or after the bound and resumes
    at its start plus max(1, length), ends on the match at [p]: the bound
    after it lies beyond [hi], or no match is left from that bound on. *)
Inductive scan (E : OnigEngine) (reg : option (OnigRegex E))
    (docBytes : list ascii) (options hi : Z) : Z -> Z -> Prop :=
| scan_last : forall b p,
    first_hit E reg docBytes options hi b p ->
    (hi < resume E reg docBytes options hi p
     \/ forall q, reach (resume E reg docBytes options hi p) hi q ->
                  ~ hit E reg docBytes options hi q) ->
    scan E reg docBytes options hi b p
| scan_next : forall b p q,
    first_hit E reg docBytes options hi b p ->
    resume E reg docBytes options hi p <= hi ->
    scan E reg docBytes options hi (resume E reg docBytes options hi p) q ->
    scan E reg docBytes options hi b q.

(** No match of the range starts inside another one. *)
Definition disjoint_hits (E : OnigEngine) (reg : option (OnigRegex E))
    (docBytes : list ascii) (options lo hi : Z) : Prop :=
  forall p q, lo <= p <= hi -> hit E reg docBytes options hi p ->
    lo <= q < hi -> hit E reg docBytes options hi q ->
    p < q -> resume E reg docBytes options hi p <= q.

(** The state with which [FindText] enters the search, when the pattern
    compiles (or is cached). *)
Definition prepared {E : OnigEngine} (st : OniguRegExEngine E)
    (sRegExprStrg : list ascii) (onigmoOptions : Z) : option (OniguRegExEngine E) :=
  match (if bReCompile st sRegExprStrg onigmoOptions
         then recompile st sRegExprStrg onigmoOptions else inl st) with
  | inl st' => Some st'
  | inr _ => None
  end.

(** [pos], [len] is the hit of the search from the bound [b], and the scan
    stops after it: the next bound [pos + max(1, len)] lies beyond [hi], or
    the search from it reports no hit. *)
Definition last_hit (E : OnigEngine) (reg : option (OnigRegex E))
    (docBytes : list ascii) (options hi b pos len : Z) : Prop :=
  let r := fst (onig_search E reg docBytes b hi options) in
  let region := snd (onig_search E reg docBytes b hi options) in
  0 <= r /\ b <= r /\ pos = r /\ len = slot (end_ region) 0 - r
  /\ b < pos + Z.max 1 len
  /\ (hi < pos + Z.max 1 len
      \/ fst (onig_search E reg docBytes (pos + Z.max 1 len) hi options) < 0).

(** The state with which the scan for [foo] in [demo_doc] starts: the
    pattern is compiled, the match state is reset and the region is the one of
    the first search. *)
Definition scan_start : OniguRegExEngine (literal_engine onigmo_h) :=
  let st := set_match (after_find "foo") ONIG_MISMATCH 0 in
  set_Region st
    (snd (onig_search (literal_engine onigmo_h) (m_RegExpr st) (bytes demo_doc) 0 13 320)).

(** The fresh instance once [foo] is compiled for a search over the whole of
    [demo_doc]. *)
Definition compiled_foo : OniguRegExEngine (literal_engine onigmo_h) :=
  match prepared fresh_instance (str "foo") 320 with
  | Some st => st
  | None => fresh_instance
  end.

Definition aaa_doc : Document := plain_document "aaa" SC_EOL_LF.

(** A document in which [foo] matches at the end of the range 0..3, and the
    fresh instance once [foo] is compiled for a search over that range (the
    range ends before the document does, so [ONIG_OPTION_NOTEOL] is set). *)
Definition foofoo_doc : Document := plain_document "foofoo" SC_EOL_LF.

Definition compiled_foo_0_3 : OniguRegExEngine (literal_engine onigmo_h) :=
  match prepared fresh_instance (str "foo")
          (search_options onigmo_h 0 true 0 3 (Length foofoo_doc)) with
  | Some st => st
  | None => fresh_instance
  end.

(** The number of backslashes that [s] ends with: the character after [s] is
    escaped, as the engine reads the pattern, when this number is odd. *)
Fixpoint leading_backslashes (s : list ascii) : nat :=
  match s with
  | c :: s' => if Ascii.eqb c (ch "\") then S (leading_backslashes s') else 0%nat
  | [] => 0%nat
  end.

Definition trailing_backslashes (s : list ascii) : nat := leading_backslashes (rev s).

(** The sixteen hexadecimal digits, in upper and in lower case. *)
Definition hex_upper : list ascii := str "0123456789ABCDEF".
Definition hex_lower : list ascii := str "0123456789abcdef".

(** What a rewriting of the occurrences of the one character [c] makes of a
    character. *)
Definition char_to (c : ascii) (to : list ascii) (x : ascii) : list ascii :=
  if Ascii.eqb x c then to else [x].

(** The [for] loop of [SubstituteByPosition] over the expanded template
    [rawReplStrg], from the cleared buffer. *)
Definition substitute_loop (doc : Document) (region : OnigRegion)
    (rawReplStrg : list ascii) : option (list ascii) :=
  for_loop (length rawReplStrg) (length rawReplStrg)
    (subst_body doc region rawReplStrg) 0%nat [].

(** The bytes of group [n] of a region, read from the document. *)
Definition group_text (doc : Document) (region : OnigRegion) (n : Z) : list ascii :=
  RangePointer doc (slot (beg region) n) (slot (end_ region) n - slot (beg region) n).

(** * Properties *)

(** ** The loops return *)

Lemma for_loop_more_fuel :
  forall (A : Type) (body : nat -> A -> nat * A) (n fuel : nat) (i : nat) (acc r : A),
    for_loop fuel n body i acc = Some r ->
    forall fuel', (fuel <= fuel')%nat -> for_loop fuel' n body i acc = Some r.
Proof.
  intros A body n fuel; induction fuel as [|fuel IH]; intros i acc r Hr fuel' Hle.
  - destruct fuel'; simpl in *; destruct (i <? n)%nat; try discriminate; assumption.
  - destruct fuel' as [|fuel']; [lia|].
    simpl in *. destruct (i <? n)%nat; [|assumption].
    destruct (body i acc) as [i' acc'].
    apply IH with (fuel' := fuel') in Hr; [assumption|lia].
Qed.

Lemma for_loop_total :
  forall (A : Type) (body : nat -> A -> nat * A) (n : nat),
    (forall i acc, (i <= fst (body i acc))%nat) ->
    forall (fuel i : nat) (acc : A),
      (n - i <= fuel)%nat -> exists r, for_loop fuel n body i acc = Some r.
Proof.
  intros A body n Hadv fuel; induction fuel as [|fuel IH]; intros i acc Hle.
  - simpl. destruct (i <? n)%nat eqn:Hlt; [apply Nat.ltb_lt in Hlt; lia|eauto].
  - simpl. destruct (i <? n)%nat eqn:Hlt; [|eauto].
    specialize (Hadv i acc). destruct (body i acc) as [i' acc']; simpl in Hadv.
    apply IH. lia.
Qed.

(** ** FindText on a null or empty pattern *)

(** C10: a call of [FindText] with a null or empty pattern returns -1 with
    [*length] set to 0 and leaves the instance as it was: the compiled
    pattern, the cached text and options, the stored match offset and length
    are those of before, and [SubstituteByPosition] behaves after the call as
    it did before it. *)
Theorem FindText_empty_pattern_unchanged :
  forall (H : OnigOptions) (E : OnigEngine) (fuel : nat) (st : OniguRegExEngine E)
         (doc : Document) (minPos maxPos : Z) (pattern : option (list ascii))
         (caseSensitive word wordStart : bool) (searchFlags len : Z),
    pattern = None \/ pattern = Some [] ->
    exists st',
      FindText H fuel st doc minPos maxPos pattern caseSensitive word wordStart
        searchFlags len = Some (-1, 0, st')
      /\ st' = st
      /\ m_RegExpr st' = m_RegExpr st
      /\ m_RegExprStrg st' = m_RegExprStrg st
      /\ m_CmplOptions st' = m_CmplOptions st
      /\ m_MatchPos st' = m_MatchPos st
      /\ m_MatchLen st' = m_MatchLen st
      /\ forall W d text n,
           SubstituteByPosition W st' d text n = SubstituteByPosition W st d text n.
Proof.
  intros H E fuel st doc minPos maxPos pattern cs word ws flags len Hp.
  exists st.
  destruct Hp as [-> | ->]; simpl; repeat split; reflexivity.
Qed.

Lemma FindText_empty_pattern_unchanged_witness :
  exists st',
    FindText onigmo_h 0 (after_find "foo") demo_doc 0 13 (Some []) true false false 0 7
      = Some (-1, 0, st')
    /\ st' = after_find "foo"
    /\ m_RegExpr st' = m_RegExpr (after_find "foo")
    /\ m_RegExprStrg st' = m_RegExprStrg (after_find "foo")
    /\ m_CmplOptions st' = m_CmplOptions (after_find "foo")
    /\ m_MatchPos st' = m_MatchPos (after_find "foo")
    /\ m_MatchLen st' = m_MatchLen (after_find "foo")
    /\ forall W d text n,
         SubstituteByPosition W st' d text n
         = SubstituteByPosition W (after_find "foo") d text n.
Proof.
  apply FindText_empty_pattern_unchanged. right; reflexivity.
Defined.

(** ** SubstituteByPosition without an active match *)

Lemma SubstituteByPosition_negative_MatchPos :
  forall (E : OnigEngine) W (st : OniguRegExEngine E) doc text n,
    m_MatchPos st < 0 -> SubstituteByPosition W st doc text n = Some (None, -1, st).
Proof.
  intros E W st doc text n Hneg. unfold SubstituteByPosition.
  destruct (m_MatchPos st <? 0) eqn:Hlt; [reflexivity|].
  apply Z.ltb_ge in Hlt. lia.
Qed.

(** What [FindText] returns on a pattern that is not empty is -2, -3 or the
    stored match offset. *)
Lemma FindText_return_value :
  forall (H : OnigOptions) (E : OnigEngine) fuel (st : OniguRegExEngine E) doc minPos maxPos
         c pattern cs word ws flags len r l st',
    FindText H fuel st doc minPos maxPos (Some (c :: pattern)) cs word ws flags len
      = Some (r, l, st') ->
    r = -2 \/ r = -3 \/ (r = m_MatchPos st' /\ l = m_MatchLen st').
Proof.
  intros H E fuel st doc minPos maxPos c pattern cs word ws flags len r l st' HF.
  unfold FindText in HF.
  destruct (search_bounds doc minPos maxPos) as [[rangeBeg rangeEnd] fp].
  destruct (translateRegExpr _ _ _ _ _ _) as [[text opts]|]; simpl in HF; [|discriminate].
  destruct (if bReCompile st text opts then recompile st text opts else inl st) as [st1|st1].
  - unfold search_range in HF.
    destruct (onig_search _ _ _ _ _ _) as [result region].
    destruct (result <? ONIG_MISMATCH).
    + inversion HF; subst; auto.
    + match type of HF with (bind ?m _ = _) => destruct m as [st2|] end;
        simpl in HF; [|discriminate].
      inversion HF; subst; auto.
  - inversion HF; subst; auto.
Qed.

(** C8 (as amended): [SubstituteByPosition] returns a null pointer with
    [*length] set to -1 whenever the stored match offset is negative: on a
    fresh instance, and after a [FindText] call with a pattern that is not
    empty that returned -1. *)
Theorem SubstituteByPosition_no_active_match :
  forall (H : OnigOptions) (E : OnigEngine) W (st : OniguRegExEngine E) doc text n,
    (st = new_OniguRegExEngine H E
     \/ (exists fuel st0 d minPos maxPos c pattern cs word ws flags len l,
           FindText H fuel st0 d minPos maxPos (Some (c :: pattern)) cs word ws flags len
             = Some (-1, l, st))
     \/ m_MatchPos st < 0) ->
    m_MatchPos st < 0
    /\ SubstituteByPosition W st doc text n = Some (None, -1, st).
Proof.
  intros H E W st doc text n Hst.
  assert (Hneg : m_MatchPos st < 0).
  { destruct Hst as [-> | [Hfind | Hneg]].
    - simpl. unfold ONIG_MISMATCH. lia.
    - destruct Hfind as (fuel & st0 & d & minPos & maxPos & c & pattern & cs & word & ws
                         & flags & len & l & HF).
      apply FindText_return_value in HF.
      destruct HF as [HF | [HF | [HF _]]]; lia.
    - assumption. }
  split; [assumption|].
  apply SubstituteByPosition_negative_MatchPos; assumption.
Qed.

Lemma SubstituteByPosition_no_active_match_witness :
  m_MatchPos (after_find "bar") < 0
  /\ SubstituteByPosition utf8_two_bytes (after_find "bar") demo_doc (str "$0") 2
     = Some (None, -1, after_find "bar").
Proof.
  apply (SubstituteByPosition_no_active_match onigmo_h).
  right; left.
  exists 0%nat, fresh_instance, demo_doc, 0, 13, (ch "b"), (str "ar"),
         true, false, false, 0, 0, 0.
  vm_compute. reflexivity.
Defined.

(** C8 (as stated) fails: a [FindText] call with an empty pattern returns -1,
    the value of "no match", and the match of the search before it is still
    active, so that [SubstituteByPosition] returns text. *)
Lemma SubstituteByPosition_after_empty_pattern_find :
  exists st' buf,
    FindText onigmo_h 0 (after_find "foo") demo_doc 0 13 (Some []) true false false 0 7
      = Some (-1, 0, st')
    /\ SubstituteByPosition utf8_two_bytes st' demo_doc (str "$0") 2
       = Some (Some (str "foo"), 3, buf)
    /\ SubstituteByPosition utf8_two_bytes st' demo_doc (str "$0") 2
       <> Some (None, -1, st').
Proof.
  eexists; eexists. split; [reflexivity|].
  split; [vm_compute; reflexivity|].
  vm_compute. discriminate.
Qed.

(** ** FindText on a pattern the engine refuses *)

Lemma str_eqb_refl : forall a, str_eqb a a = true.
Proof.
  induction a as [|x a IH]; simpl; [reflexivity|].
  rewrite Ascii.eqb_refl, IH. reflexivity.
Qed.

Lemma str_eqb_eq : forall a b, str_eqb a b = true <-> a = b.
Proof.
  induction a as [|x a IH]; intros [|y b]; simpl; split; intros Hab;
    try reflexivity; try discriminate.
  - apply andb_true_iff in Hab. destruct Hab as [Hxy Hab].
    apply Ascii.eqb_eq in Hxy. apply IH in Hab. subst. reflexivity.
  - inversion Hab; subst. rewrite Ascii.eqb_refl. apply str_eqb_refl.
Qed.

(** C1 (as amended): when recompilation is triggered and the engine compiler
    fails, [FindText] returns -2 and stores the engine's message; the cached
    text and options have been overwritten with those of the failing request,
    the handle is the one the engine left, and the stored match is not
    touched.  When the engine left a null handle, a second call with the same
    arguments recompiles and fails in the same way. *)
Theorem FindText_invalid_pattern :
  forall (H : OnigOptions) (E : OnigEngine) (fuel : nat) (st : OniguRegExEngine E)
         (doc : Document) (minPos maxPos : Z) (c : ascii) (p : list ascii)
         (caseSensitive word wordStart : bool) (searchFlags len : Z)
         (rangeBeg rangeEnd : Z) (findprevious : bool)
         (text : list ascii) (opts res : Z) (reg : option (OnigRegex E))
         (einfo : OnigErrorInfo E),
    search_bounds doc minPos maxPos = (rangeBeg, rangeEnd, findprevious) ->
    translateRegExpr H (c :: p) word wordStart (eolMode doc)
      (search_options H searchFlags caseSensitive rangeBeg rangeEnd (Length doc))
      = Some (text, opts) ->
    bReCompile st text opts = true ->
    onig_new E text opts = (res, reg, einfo) ->
    res <> 0 ->
    exists st',
      FindText H fuel st doc minPos maxPos (Some (c :: p)) caseSensitive word wordStart
        searchFlags len = Some (-2, len, st')
      /\ m_ErrorInfo st' = onig_error_code_to_str E res (Some einfo)
      /\ m_RegExprStrg st' = text
      /\ m_CmplOptions st' = opts
      /\ m_RegExpr st' = reg
      /\ m_MatchPos st' = m_MatchPos st
      /\ m_MatchLen st' = m_MatchLen st
      /\ (reg = None ->
          bReCompile st' text opts = true
          /\ forall fuel',
               FindText H fuel' st' doc minPos maxPos (Some (c :: p)) caseSensitive word
                 wordStart searchFlags len = Some (-2, len, st')).
Proof.
  intros H E fuel st doc minPos maxPos c p cs word ws flags len rangeBeg rangeEnd fp
         text opts res reg einfo Hb Ht Hre Hnew Hres.
  assert (Hneq : negb (res =? 0) = true)
    by (apply negb_true_iff, Z.eqb_neq; assumption).
  eexists. split.
  { unfold FindText. rewrite Hb, Ht. simpl. rewrite Hre.
    unfold recompile. simpl. rewrite Hnew. simpl. rewrite Hneq. reflexivity. }
  repeat (split; [reflexivity|]).
  intros ->. split; [reflexivity|].
  intros fuel'. unfold FindText. rewrite Hb, Ht. simpl.
  unfold recompile. simpl. rewrite Hnew. simpl. rewrite Hneq. reflexivity.
Qed.

Lemma FindText_invalid_pattern_witness :
  exists st',
    FindText onigmo_h 0 fresh_instance demo_doc 0 13 (Some (str "(")) true false false 0 7
      = Some (-2, 7, st')
    /\ m_ErrorInfo st' = str "end pattern with unmatched parenthesis"
    /\ m_RegExprStrg st' = str "("
    /\ m_CmplOptions st' = 320
    /\ m_RegExpr st' = None
    /\ m_MatchPos st' = m_MatchPos fresh_instance
    /\ m_MatchLen st' = m_MatchLen fresh_instance
    /\ (@None lit_regex = None ->
        bReCompile st' (str "(") 320 = true
        /\ forall fuel',
             FindText onigmo_h fuel' st' demo_doc 0 13 (Some (str "(")) true false false 0 7
               = Some (-2, 7, st')).
Proof.
  apply (FindText_invalid_pattern onigmo_h (literal_engine onigmo_h) 0 fresh_instance
           demo_doc 0 13 (ch "(") [] true false false 0 7 0 13 false
           (str "(") 320 ONIGERR_END_PATTERN_WITH_UNMATCHED_PARENTHESIS None tt).
  - reflexivity.
  - reflexivity.
  - reflexivity.
  - reflexivity.
  - unfold ONIGERR_END_PATTERN_WITH_UNMATCHED_PARENTHESIS. lia.
Defined.

(** C1 (as stated) fails: the failing call has overwritten the cached pattern
    text and the cached options. *)
Lemma FindText_invalid_pattern_mutates_cache :
  exists st',
    FindText onigmo_h 0 fresh_instance demo_doc 0 13 (Some (str "(")) true false false 0 7
      = Some (-2, 7, st')
    /\ m_RegExprStrg fresh_instance = []
    /\ m_RegExprStrg st' = str "("
    /\ m_RegExprStrg st' <> m_RegExprStrg fresh_instance
    /\ m_CmplOptions st' <> m_CmplOptions fresh_instance.
Proof.
  eexists. split; [vm_compute; reflexivity|].
  simpl. repeat split; try reflexivity; discriminate.
Qed.

(** ** convertReplExpr *)

Lemma convert_hex_advances :
  forall W replStr i c tmpStr, (i <= fst (convert_hex W replStr i c tmpStr))%nat.
Proof.
  intros W replStr i c tmpStr. unfold convert_hex.
  repeat match goal with
         | |- context [if ?b then _ else _] => destruct b
         end; simpl; lia.
Qed.

Lemma convert_body_advances :
  forall W replStr i tmpStr, (i <= fst (convert_body W replStr i tmpStr))%nat.
Proof.
  intros W replStr i tmpStr. unfold convert_body.
  destruct (Ascii.eqb (at_ replStr i) (ch "\")); [|simpl; lia].
  repeat match goal with
         | |- context [if Ascii.eqb ?a ?b then _ else _] => destruct (Ascii.eqb a b)
         | |- context [if ?a || ?b then _ else _] => destruct (a || b)
         end; simpl; try lia.
  all: pose proof (convert_hex_advances W replStr (S i) (at_ replStr (S i))) as Hh.
  all: match goal with
       | |- (_ <= fst (convert_hex _ _ _ _ ?t))%nat => specialize (Hh t); lia
       end.
Qed.

(** The expansion of a template always returns. *)
Lemma convertReplExpr_total :
  forall W replStr, exists out, convertReplExpr W replStr = Some out.
Proof.
  intros W replStr. unfold convertReplExpr.
  apply for_loop_total; [apply convert_body_advances|lia].
Qed.

(** A run of characters other than the backslash is copied. *)
Lemma convert_plain_run :
  forall W s t, Forall (fun c => c <> backslash) s ->
  forall d k fuel acc,
    (d = length s - k)%nat -> (k <= length s)%nat ->
    for_loop (fuel + d) (length (s ++ t)) (convert_body W (s ++ t)) k acc
    = for_loop fuel (length (s ++ t)) (convert_body W (s ++ t)) (length s) (acc ++ skipn k s).
Proof.
  intros W s t Hs d; induction d as [|d IH]; intros k fuel acc Hd Hk.
  - assert (k = length s) by lia. subst k.
    rewrite skipn_all, app_nil_r, Nat.add_0_r. reflexivity.
  - assert (Hlt : (k < length s)%nat) by lia.
    rewrite Nat.add_succ_r. simpl.
    assert (Hn : (k <? length (s ++ t))%nat = true).
    { apply Nat.ltb_lt. rewrite length_app. lia. }
    rewrite Hn.
    assert (Hat : at_ (s ++ t) k = nth k s NUL).
    { unfold at_. apply app_nth1. assumption. }
    assert (Hne : Ascii.eqb (at_ (s ++ t) k) (ch "\") = false).
    { apply Ascii.eqb_neq. rewrite Hat.
      rewrite Forall_forall in Hs. apply Hs. apply nth_In. assumption. }
    unfold convert_body at 1. rewrite Hne.
    rewrite IH by lia.
    rewrite Hat, <- app_assoc. simpl.
    f_equal. f_equal.
    clear - Hlt. revert k Hlt. induction s as [|x s IHs]; intros k Hlt; simpl in *; [lia|].
    destruct k as [|k]; [reflexivity|]. simpl. apply IHs. lia.
Qed.

Lemma convertReplExpr_plain :
  forall W s, Forall (fun c => c <> backslash) s -> convertReplExpr W s = Some s.
Proof.
  intros W s Hs. unfold convertReplExpr.
  pose proof (convert_plain_run W s [] Hs (length s) 0 0 []) as Hrun.
  rewrite app_nil_r in Hrun. simpl in Hrun. rewrite Hrun by lia.
  simpl. rewrite Nat.ltb_irrefl. reflexivity.
Qed.

(** A template that ends in a backslash after a run of other characters:
    the terminator read after the backslash is pushed onto the output. *)
Lemma convertReplExpr_plain_then_backslash :
  forall W s, Forall (fun c => c <> backslash) s ->
    convertReplExpr W (s ++ [backslash]) = Some (s ++ [NUL]).
Proof.
  intros W s Hs. unfold convertReplExpr.
  pose proof (convert_plain_run W s [backslash] Hs (length s) 0 1 []) as Hrun.
  replace (length (s ++ [backslash])) with (1 + length s)%nat at 1
    by (rewrite length_app; simpl; lia).
  rewrite Hrun by lia. clear Hrun. cbn [skipn app].
  assert (Hn : length (s ++ [backslash]) = S (length s))
    by (rewrite length_app; simpl; lia).
  rewrite Hn. simpl.
  assert (Hlt : (length s <? S (length s))%nat = true) by (apply Nat.ltb_lt; lia).
  rewrite Hlt.
  assert (H0 : at_ (s ++ [backslash]) (length s) = backslash).
  { unfold at_. rewrite app_nth2 by lia. rewrite Nat.sub_diag. reflexivity. }
  assert (H1 : at_ (s ++ [backslash]) (S (length s)) = NUL).
  { unfold at_. apply nth_overflow. rewrite Hn. lia. }
  unfold convert_body. rewrite H0. unfold backslash at 1. rewrite Ascii.eqb_refl.
  rewrite H1. simpl.
  assert (Hge : (S (S (length s)) <? S (length s))%nat = false)
    by (apply Nat.ltb_ge; lia).
  rewrite Hge. reflexivity.
Qed.

(** C2: the code at a template that ends in a dangling backslash.  The
    lookahead reads the terminator and the default case pushes it: the
    expansion of [a\] is [a] followed by a NUL byte, not the expansion of
    [a]. *)
Theorem convertReplExpr_dangling_backslash :
  forall W : Z -> list ascii,
    convertReplExpr W (str "a\") = Some [ch "a"; NUL]
    /\ convertReplExpr W (str "a") = Some [ch "a"]
    /\ convertReplExpr W (str "a\") <> convertReplExpr W (str "a").
Proof.
  intros W. repeat split; try reflexivity. discriminate.
Qed.

(** ** SubstituteByPosition on backreferences *)

Lemma subst_body_advances :
  forall doc region raw j buf, (j <= fst (subst_body doc region raw j buf))%nat.
Proof.
  intros doc region raw j buf. unfold subst_body.
  repeat match goal with
         | |- context [if ?b then _ else _] => destruct b
         end; simpl; lia.
Qed.

(** With an active match the substitution returns a buffer, whatever the
    template, when the length given is not negative. *)
Lemma SubstituteByPosition_returns_buffer :
  forall (E : OnigEngine) W (st : OniguRegExEngine E) doc text n,
    0 <= m_MatchPos st -> 0 <= n ->
    exists raw out,
      convertReplExpr W (firstn (Z.to_nat n) text) = Some raw
      /\ for_loop (length raw) (length raw) (subst_body doc (m_Region st) raw) 0%nat []
         = Some out
      /\ SubstituteByPosition W st doc text n
         = Some (Some out, Z.of_nat (length out), set_SubstBuffer st out).
Proof.
  intros E W st doc text n Hpos Hn.
  destruct (convertReplExpr_total W (firstn (Z.to_nat n) text)) as [raw Hraw].
  destruct (for_loop_total _ (subst_body doc (m_Region st) raw) (length raw)
              (subst_body_advances doc (m_Region st) raw) (length raw) 0%nat [])
    as [out Hout]; [lia|].
  exists raw, out. repeat split; try assumption.
  unfold SubstituteByPosition.
  destruct (m_MatchPos st <? 0) eqn:Hlt; [apply Z.ltb_lt in Hlt; lia|].
  destruct (n <? 0) eqn:Hneg; [apply Z.ltb_lt in Hneg; lia|].
  rewrite Hraw. simpl. rewrite Hout. simpl. reflexivity.
Qed.

(** C9: in the substitution loop, at a [$] or a backslash followed by a digit
    whose group number is not below the number of groups of the region, the
    body appends nothing and skips the digit, so that the loop resumes two
    characters further with the buffer unchanged; and the operation as a
    whole returns its buffer. *)
Theorem SubstituteByPosition_group_out_of_range :
  forall (E : OnigEngine) W (st : OniguRegExEngine E) doc text n
         (raw : list ascii) (j : nat) (buf : list ascii),
    0 <= m_MatchPos st ->
    convertReplExpr W (firstn (Z.to_nat n) text) = Some raw ->
    (j < length raw)%nat ->
    at_ raw j = ch "$" \/ at_ raw j = ch "\" ->
    is_between "0" "9" (at_ raw (S j)) = true ->
    num_regs (m_Region st) <= code (at_ raw (S j)) - code (ch "0") ->
    subst_body doc (m_Region st) raw j buf = (S j, buf)
    /\ (forall fuel,
          for_loop (S fuel) (length raw) (subst_body doc (m_Region st) raw) j buf
          = for_loop fuel (length raw) (subst_body doc (m_Region st) raw) (S (S j)) buf)
    /\ exists out,
         for_loop (length raw) (length raw) (subst_body doc (m_Region st) raw) 0%nat []
           = Some out
         /\ SubstituteByPosition W st doc text n
            = Some (Some out, Z.of_nat (length out), set_SubstBuffer st out).
Proof.
  intros E W st doc text n raw j buf Hpos Hraw Hj Hmark Hdig Hgrp.
  assert (Hbody : subst_body doc (m_Region st) raw j buf = (S j, buf)).
  { unfold subst_body.
    assert (Hm : Ascii.eqb (at_ raw j) (ch "$") || Ascii.eqb (at_ raw j) (ch "\") = true).
    { destruct Hmark as [-> | ->]; reflexivity. }
    rewrite Hm, Hdig.
    destruct (code (at_ raw (S j)) - code (ch "0") <? num_regs (m_Region st)) eqn:Hlt;
      [apply Z.ltb_lt in Hlt; lia|reflexivity]. }
  split; [assumption|]. split.
  - intros fuel. simpl.
    apply Nat.ltb_lt in Hj. rewrite Hj, Hbody. reflexivity.
  - assert (Hn : 0 <= n).
    { destruct (Z.lt_ge_cases n 0) as [Hneg | Hge]; [|assumption].
      exfalso. replace (Z.to_nat n) with 0%nat in Hraw by lia.
      cbn in Hraw. inversion Hraw; subst raw. simpl in Hj. lia. }
    destruct (SubstituteByPosition_returns_buffer E W st doc text n Hpos Hn)
      as (raw' & out & Hraw' & Hout & HS).
    rewrite Hraw in Hraw'. inversion Hraw'; subst raw'.
    exists out. split; assumption.
Qed.

Lemma SubstituteByPosition_group_out_of_range_witness :
  subst_body demo_doc (m_Region (after_find "foo")) (str "<$5$7>") 1 (str "<")
    = (2%nat, str "<")
  /\ (forall fuel,
        for_loop (S fuel) 6 (subst_body demo_doc (m_Region (after_find "foo")) (str "<$5$7>"))
          1 (str "<")
        = for_loop fuel 6 (subst_body demo_doc (m_Region (after_find "foo")) (str "<$5$7>"))
            3 (str "<"))
  /\ exists out,
       for_loop 6 6 (subst_body demo_doc (m_Region (after_find "foo")) (str "<$5$7>"))
         0%nat [] = Some out
       /\ SubstituteByPosition utf8_two_bytes (after_find "foo") demo_doc (str "<$5\7>") 6
          = Some (Some out, Z.of_nat (length out), set_SubstBuffer (after_find "foo") out).
Proof.
  apply (SubstituteByPosition_group_out_of_range (literal_engine onigmo_h) utf8_two_bytes
           (after_find "foo") demo_doc (str "<$5\7>") 6 (str "<$5$7>") 1 (str "<")).
  - vm_compute. discriminate.
  - vm_compute. reflexivity.
  - simpl. lia.
  - left. reflexivity.
  - reflexivity.
  - vm_compute. discriminate.
Defined.

(** ** replaceAll is the left-to-right rewriting *)

Lemma prefixb_app_iff :
  forall p s, prefixb p s = true <-> exists rest, s = p ++ rest.
Proof.
  induction p as [|a p IH]; intros s; simpl.
  - split; [intros _; exists s; reflexivity|reflexivity].
  - destruct s as [|b s].
    + split; [discriminate|intros [rest Hr]; discriminate].
    + rewrite andb_true_iff, Ascii.eqb_eq, IH. split.
      * intros [-> [rest ->]]. exists rest. reflexivity.
      * intros [rest Hr]. inversion Hr; subst. split; [reflexivity|exists rest; reflexivity].
Qed.

Lemma prefixb_short :
  forall p s v, prefixb p (s ++ v) = true -> (length p <= length s)%nat ->
    prefixb p s = true.
Proof.
  induction p as [|a p IH]; intros s v Hp Hlen; [reflexivity|].
  destruct s as [|b s]; simpl in *; [lia|].
  apply andb_true_iff in Hp. destruct Hp as [Hab Hp].
  rewrite Hab. simpl. apply IH with (v := v); [assumption|lia].
Qed.

Lemma prefixb_compat :
  forall p t v, prefixb p (t ++ v) = true -> compat p t = true.
Proof.
  unfold compat. induction p as [|a p IH]; intros t v Hp; [reflexivity|].
  destruct t as [|b t]; [reflexivity|].
  simpl in *. apply andb_true_iff in Hp. destruct Hp as [Hab Hp].
  rewrite Hab. simpl. apply Ascii.eqb_eq in Hab. subst b.
  rewrite Ascii.eqb_refl. simpl. apply IH with (v := v). assumption.
Qed.

Lemma skipn_app_exact :
  forall (pre x : list ascii), skipn (length pre) (pre ++ x) = x.
Proof.
  intros pre x. rewrite skipn_app, skipn_all, Nat.sub_diag. reflexivity.
Qed.

Lemma firstn_app_exact :
  forall (x y : list ascii), firstn (length x) (x ++ y) = x.
Proof.
  intros x y. rewrite firstn_app, firstn_all, Nat.sub_diag. simpl.
  apply app_nil_r.
Qed.

Lemma find_in_skip :
  forall from mid rest pos,
    (forall q, (q < length mid)%nat -> prefixb from (skipn q (mid ++ rest)) = false) ->
    find_in from (mid ++ rest) pos = find_in from rest (pos + length mid).
Proof.
  intros from mid; induction mid as [|a mid IH]; intros rest pos Hq.
  - simpl. rewrite Nat.add_0_r. reflexivity.
  - pose proof (Hq 0%nat) as H0. simpl in H0.
    cbn [app find_in]. rewrite H0 by lia.
    rewrite IH.
    + simpl. f_equal. lia.
    + intros q Hlt. apply (Hq (S q)). simpl. lia.
Qed.

Lemma find_in_hit :
  forall from s pos, prefixb from s = true -> find_in from s pos = Some pos.
Proof.
  intros from s pos Hp. destruct s; simpl in *; rewrite Hp; reflexivity.
Qed.

Lemma find_at_offset :
  forall from pre mid rest,
    (forall q, (q < length mid)%nat -> prefixb from (skipn q (mid ++ rest)) = false) ->
    find (pre ++ mid ++ rest) from (length pre)
    = find_in from rest (length pre + length mid).
Proof.
  intros from pre mid rest Hq. unfold find.
  assert (Hle : (length pre <=? length (pre ++ mid ++ rest))%nat = true).
  { apply Nat.leb_le. rewrite length_app. lia. }
  rewrite Hle, skipn_app_exact. apply find_in_skip. assumption.
Qed.

Lemma replaceAll_loop_Rewritten :
  forall from to source, from <> [] ->
  forall rest out, Rewritten from to rest out ->
  forall pre mid newString fuel,
    source = pre ++ mid ++ rest ->
    (forall q, (q < length mid)%nat -> prefixb from (skipn q (mid ++ rest)) = false) ->
    (length rest < fuel)%nat ->
    replaceAll_loop fuel source from to newString (length pre)
    = Some (newString ++ mid ++ out).
Proof.
  intros from to source Hne rest out HR.
  induction HR as [|rest out HR IH|c s out Hc HR IH];
    intros pre mid newString fuel Hsrc Hq Hfuel.
  - assert (Hf : find source from (length pre) = None).
    { subst source. rewrite find_at_offset by assumption.
      destruct from; [congruence|reflexivity]. }
    destruct fuel; simpl; rewrite Hf; unfold substr_from;
      subst source; rewrite skipn_app_exact, !app_nil_r; reflexivity.
  - assert (Hf : find source from (length pre) = Some (length pre + length mid)%nat).
    { subst source. rewrite find_at_offset by assumption.
      apply find_in_hit. apply prefixb_app_iff. exists rest. reflexivity. }
    destruct fuel as [|fuel]; [lia|].
    simpl. rewrite Hf.
    assert (Hsub : substr source (length pre) (length pre + length mid - length pre) = mid).
    { unfold substr. subst source. rewrite skipn_app_exact.
      replace (length pre + length mid - length pre)%nat with (length mid) by lia.
      apply firstn_app_exact. }
    rewrite Hsub.
    specialize (IH (pre ++ mid ++ from) [] (newString ++ mid ++ to) fuel).
    rewrite !length_app in IH. rewrite Nat.add_assoc in IH.
    rewrite IH.
    + simpl. rewrite <- !app_assoc. reflexivity.
    + subst source. simpl. rewrite <- !app_assoc. reflexivity.
    + simpl. intros q Hlt. lia.
    + rewrite length_app in Hfuel. destruct from; [congruence|simpl in Hfuel; lia].
  - specialize (IH pre (mid ++ [c]) newString fuel).
    rewrite IH.
    + rewrite <- !app_assoc. reflexivity.
    + subst source. rewrite <- !app_assoc. reflexivity.
    + intros q Hlt. rewrite length_app in Hlt. simpl in Hlt.
      rewrite <- app_assoc. simpl.
      destruct (Nat.eq_dec q (length mid)) as [-> | Hneq].
      * rewrite skipn_app_exact. assumption.
      * apply Hq. lia.
    + simpl in Hfuel. lia.
Qed.

Lemma Rewritten_replaceAll :
  forall from to s out, from <> [] ->
    Rewritten from to s out -> replaceAll s from to = Some out.
Proof.
  intros from to s out Hne HR. unfold replaceAll.
  apply (replaceAll_loop_Rewritten from to s Hne s out HR [] [] [] (S (length s)));
    [reflexivity|simpl; intros; lia|lia].
Qed.

Lemma Rewritten_total :
  forall from to, from <> [] -> forall s, exists out, Rewritten from to s out.
Proof.
  intros from to Hne s.
  remember (length s) as n eqn:Hn.
  revert s Hn. induction n as [n IH] using lt_wf_ind. intros s Hn.
  destruct (prefixb from s) eqn:Hp.
  - apply prefixb_app_iff in Hp. destruct Hp as [rest ->].
    destruct (IH (length rest)) with (s := rest) as [out Hout]; [|reflexivity|].
    + subst n. rewrite length_app. destruct from; [congruence|simpl; lia].
    + exists (to ++ out). constructor. assumption.
  - destruct s as [|c s].
    + exists []. constructor.
    + destruct (IH (length s)) with (s := s) as [out Hout]; [subst n; simpl; lia|reflexivity|].
      exists (c :: out). constructor; assumption.
Qed.

Lemma replaceAll_Rewritten :
  forall from to s out, from <> [] ->
    replaceAll s from to = Some out -> Rewritten from to s out.
Proof.
  intros from to s out Hne Hr.
  destruct (Rewritten_total from to Hne s) as [out' HR].
  pose proof (Rewritten_replaceAll from to s out' Hne HR) as Hr'.
  rewrite Hr in Hr'. inversion Hr'; subst. assumption.
Qed.

(** [replaceAll] returns whenever [from] is not empty. *)
Lemma replaceAll_total :
  forall from to s, from <> [] -> exists out, replaceAll s from to = Some out.
Proof.
  intros from to s Hne.
  destruct (Rewritten_total from to Hne s) as [out HR].
  exists out. apply Rewritten_replaceAll; assumption.
Qed.

(** ** Rewriting a concatenation *)

Lemma Rewritten_app :
  forall from to u u' v v', from <> [] ->
    Rewritten from to u u' -> ~ straddle from u v -> Rewritten from to v v' ->
    Rewritten from to (u ++ v) (u' ++ v').
Proof.
  intros from to u u' v v' Hne HR. induction HR as [|rest out HR IH|c s out Hc HR IH];
    intros Hns Hv.
  - assumption.
  - rewrite <- !app_assoc. constructor. apply IH; [|assumption].
    intros (k & Hk & Hkr & Hp). apply Hns. exists k.
    rewrite length_app. repeat split; try lia.
    rewrite skipn_app.
    replace (length from + length rest - k - length from)%nat
      with (length rest - k)%nat by lia.
    rewrite skipn_all2 by lia. assumption.
  - simpl. constructor.
    + destruct (prefixb from (c :: s ++ v)) eqn:Hp; [exfalso|reflexivity].
      destruct (Nat.le_gt_cases (length from) (length (c :: s))) as [Hle | Hgt].
      * apply (prefixb_short from (c :: s) v) in Hp; [congruence|assumption].
      * apply Hns. exists (length (c :: s)).
        split; [simpl in *; lia|]. split; [lia|].
        rewrite Nat.sub_diag. assumption.
    + apply IH; [|assumption].
      intros (k & Hk & Hks & Hp). apply Hns. exists k.
      split; [lia|]. split; [simpl; lia|].
      replace (length (c :: s) - k)%nat with (S (length s - k)) by (cbn [length]; lia).
      assumption.
Qed.

Lemma app_split_at :
  forall (x y p r : list ascii), x ++ y = p ++ r -> (length x <= length p)%nat ->
    x = firstn (length x) p /\ y = skipn (length x) p ++ r.
Proof.
  intros x y p r Heq Hlen. split.
  - assert (Hf : firstn (length x) (x ++ y) = firstn (length x) (p ++ r)) by (rewrite Heq; reflexivity).
    rewrite firstn_app_exact in Hf. rewrite firstn_app in Hf.
    replace (length x - length p)%nat with 0%nat in Hf by lia.
    simpl in Hf. rewrite app_nil_r in Hf. exact Hf.
  - assert (Hs : skipn (length x) (x ++ y) = skipn (length x) (p ++ r)) by (rewrite Heq; reflexivity).
    rewrite skipn_app_exact in Hs. rewrite skipn_app in Hs.
    replace (length x - length p)%nat with 0%nat in Hs by lia. exact Hs.
Qed.

Lemma no_straddle_left :
  forall from u tok v,
    (forall k, In k (dangerous from tok) -> (k <= length u)%nat ->
               skipn (length u - k) u <> firstn k from) ->
    ~ straddle from u (tok ++ v).
Proof.
  intros from u tok v Hd (k & Hk & Hku & Hp).
  apply prefixb_app_iff in Hp. destruct Hp as [r Hr].
  assert (Hlen : length (skipn (length u - k) u) = k) by (rewrite length_skipn; lia).
  apply app_split_at in Hr; [|rewrite Hlen; lia]. rewrite Hlen in Hr. destruct Hr as [Hx Hy].
  apply (Hd k); try assumption.
  unfold dangerous. apply filter_In. split.
  - apply in_seq. lia.
  - apply prefixb_compat with (v := v). apply prefixb_app_iff.
    exists r. assumption.
Qed.

Lemma no_straddle_right :
  forall from tok v, free_right from tok = true -> ~ straddle from tok v.
Proof.
  intros from tok v Hfree (k & Hk & Hkt & Hp).
  unfold free_right in Hfree. rewrite forallb_forall in Hfree.
  specialize (Hfree k). apply prefixb_compat in Hp.
  rewrite Hp in Hfree. simpl in Hfree.
  assert (Hin : In k (seq 1 (Nat.min (length from - 1) (length tok)))) by (apply in_seq; lia).
  specialize (Hfree Hin). discriminate.
Qed.

(** ** The last character through a rewriting *)

Lemma ends_with_backslash_app :
  forall a b, b <> [] -> ends_with_backslash (a ++ b) = ends_with_backslash b.
Proof.
  intros a b Hb. unfold ends_with_backslash. rewrite rev_app_distr.
  destruct (rev b) as [|c r] eqn:Hr; [|reflexivity].
  apply (f_equal (@rev ascii)) in Hr. rewrite rev_involutive in Hr. simpl in Hr. congruence.
Qed.

Lemma Rewritten_nil_inv :
  forall from to out, from <> [] -> Rewritten from to [] out -> out = [].
Proof.
  intros from to out Hne HR. inversion HR; subst; [reflexivity|].
  destruct from; [congruence|discriminate].
Qed.

Lemma Rewritten_ends :
  forall from to u u', from <> [] -> to <> [] -> ends_with_backslash to = false ->
    Rewritten from to u u' ->
    ends_with_backslash u = false -> ends_with_backslash u' = false.
Proof.
  intros from to u u' Hne Hto Hte HR.
  induction HR as [|rest out HR IH|c s out Hc HR IH]; intros Hu.
  - reflexivity.
  - destruct out as [|o out].
    + rewrite app_nil_r. assumption.
    + rewrite ends_with_backslash_app by discriminate. apply IH.
      destruct rest as [|r rest].
      * apply Rewritten_nil_inv in HR; [discriminate|assumption].
      * rewrite ends_with_backslash_app in Hu by discriminate. assumption.
  - destruct s as [|x s].
    + apply Rewritten_nil_inv in HR; [subst out; assumption|assumption].
    + change (c :: x :: s) with ([c] ++ x :: s) in Hu.
      rewrite ends_with_backslash_app in Hu by discriminate.
      specialize (IH Hu).
      destruct out as [|o out].
      * inversion HR; subst.
        destruct to; [congruence|discriminate].
      * change (c :: o :: out) with ([c] ++ o :: out).
        rewrite ends_with_backslash_app by discriminate. assumption.
Qed.

Lemma no_backslash_last :
  forall u, ends_with_backslash u = false -> (1 <= length u)%nat ->
    skipn (length u - 1) u <> [backslash].
Proof.
  intros u Hu Hlen.
  destruct (exists_last (l := u)) as (u0 & c & ->); [destruct u; simpl in *; [lia|discriminate]|].
  rewrite length_app. simpl.
  replace (length u0 + 1 - 1)%nat with (length u0) by lia.
  rewrite skipn_app_exact.
  unfold ends_with_backslash in Hu. rewrite rev_app_distr in Hu. simpl in Hu.
  apply Ascii.eqb_neq in Hu. congruence.
Qed.

(** ** A token through the rules *)

Lemma apply_rules_split :
  forall rules nobs tok u v,
    token_splits nobs rules tok = true ->
    (nobs = true -> ends_with_backslash u = false) ->
    exists u' tok' v',
      apply_rules rules u = Some u'
      /\ apply_rules rules tok = Some tok'
      /\ apply_rules rules v = Some v'
      /\ apply_rules rules (u ++ tok ++ v) = Some (u' ++ tok' ++ v').
Proof.
  induction rules as [|[from to] rules IH]; intros nobs tok u v Hok Hu.
  - exists u, tok, v. repeat split; reflexivity.
  - cbn [token_splits] in Hok.
    destruct from as [|f from]; [discriminate|].
    destruct (replaceAll tok (f :: from) to) as [tok1|] eqn:Htok; [|discriminate].
    apply andb_true_iff in Hok. destruct Hok as [Hok Hrest].
    apply andb_true_iff in Hok. destruct Hok as [Hok Hgood].
    apply andb_true_iff in Hok. destruct Hok as [Hright Hleft].
    assert (Hne : f :: from <> []) by discriminate.
    destruct (Rewritten_total (f :: from) to Hne u) as [u1 Hu1].
    destruct (Rewritten_total (f :: from) to Hne v) as [v1 Hv1].
    pose proof (replaceAll_Rewritten _ _ _ _ Hne Htok) as Htok1.
    assert (Hall : Rewritten (f :: from) to (u ++ tok ++ v) (u1 ++ tok1 ++ v1)).
    { apply Rewritten_app; try assumption.
      - apply no_straddle_left. intros k Hin Hku.
        destruct (dangerous (f :: from) tok) as [|k1 d]; [contradiction|].
        destruct k1 as [|[|k1]]; [discriminate Hleft| |discriminate Hleft].
        destruct d as [|k2 d]; [|discriminate Hleft].
        apply andb_true_iff in Hleft. destruct Hleft as [Hnobs Hf].
        apply Ascii.eqb_eq in Hf. subst f.
        destruct Hin as [<- | []]. simpl.
        apply no_backslash_last; [apply Hu; assumption|assumption].
      - apply Rewritten_app; try assumption.
        apply no_straddle_right. assumption. }
    destruct (IH nobs tok1 u1 v1 Hrest) as (u' & tok' & v' & Hu' & Htok' & Hv' & Hall').
    { intros Hn. rewrite Hn in Hgood. simpl in Hgood.
      apply andb_true_iff in Hgood. destruct Hgood as [Hends Hto].
      apply negb_true_iff in Hends.
      apply (Rewritten_ends (f :: from) to u u1); try assumption.
      - destruct to; [discriminate|discriminate].
      - apply Hu. assumption. }
    exists u', tok', v'. cbn [apply_rules].
    rewrite (Rewritten_replaceAll _ _ _ _ Hne Hu1).
    rewrite Htok.
    rewrite (Rewritten_replaceAll _ _ _ _ Hne Hv1).
    rewrite (Rewritten_replaceAll _ _ _ _ Hne Hall).
    simpl. repeat split; assumption.
Qed.

(** The rules never fail: every [from] is a non-empty literal. *)
Lemma apply_rules_total :
  forall rules s, Forall (fun r => fst r <> []) rules ->
    exists out, apply_rules rules s = Some out.
Proof.
  induction rules as [|[from to] rules IH]; intros s Hr.
  - exists s. reflexivity.
  - inversion Hr as [|r rs Hne Hrs]; subst. simpl in Hne.
    destruct (replaceAll_total from to s Hne) as [s1 Hs1].
    destruct (IH s1 Hrs) as [out Hout].
    exists out. simpl. rewrite Hs1. simpl. assumption.
Qed.

Lemma rewrite_rules_nonempty :
  forall word eolMode, Forall (fun r => fst r <> []) (rewrite_rules word eolMode).
Proof.
  intros word eolMode. unfold rewrite_rules.
  destruct word, (eolMode =? SC_EOL_CR); simpl;
    repeat (constructor; [simpl; discriminate|]); constructor.
Qed.

(** [translateRegExpr] is the application of its rules to the wrapped
    pattern. *)
Lemma translateRegExpr_rules :
  forall H regExprStr wholeWord wordStart eolMode rxOptions,
    translateRegExpr H regExprStr wholeWord wordStart eolMode rxOptions
    = (t <- apply_rules (rewrite_rules (wholeWord || wordStart) eolMode)
              (word_prefix wholeWord wordStart ++ regExprStr
               ++ word_suffix wholeWord wordStart) ;;
       Some (t, eol_options H eolMode rxOptions)).
Proof.
  intros H p ww ws eol o.
  unfold translateRegExpr, rewrite_rules, word_prefix, word_suffix, eol_options.
  destruct (ww || ws) eqn:Hw.
  - cbn [word_rules boundary_rules cr_rules app apply_rules].
    destruct (replaceAll _ (str ".") _) as [t0|]; [|reflexivity]. cbn [bind].
    destruct (replaceAll t0 _ _) as [t1|]; [|reflexivity]. cbn [bind].
    destruct (replaceAll t1 _ _) as [t2|]; [|reflexivity]. cbn [bind].
    destruct (replaceAll t2 _ _) as [t3|]; [|reflexivity]. cbn [bind].
    destruct (replaceAll t3 _ _) as [t4|]; [|reflexivity]. cbn [bind].
    destruct (eol =? SC_EOL_LF) eqn:Hlf.
    + apply Z.eqb_eq in Hlf. subst eol. reflexivity.
    + destruct (eol =? SC_EOL_CR) eqn:Hcr.
      * cbn [cr_rules app apply_rules orb].
        destruct (replaceAll t4 _ _) as [t5|]; [|reflexivity]. cbn [bind].
        destruct (replaceAll t5 _ _) as [t6|]; reflexivity.
      * cbn [apply_rules bind orb]. destruct (eol =? SC_EOL_CRLF); reflexivity.
  - replace (p ++ (if ww then str "\b" else [])) with p
      by (destruct ww; [discriminate|rewrite app_nil_r; reflexivity]).
    cbn [word_rules boundary_rules cr_rules app apply_rules bind].
    destruct (replaceAll p _ _) as [t1|]; [|reflexivity]. cbn [bind].
    destruct (replaceAll t1 _ _) as [t2|]; [|reflexivity]. cbn [bind].
    destruct (replaceAll t2 _ _) as [t3|]; [|reflexivity]. cbn [bind].
    destruct (replaceAll t3 _ _) as [t4|]; [|reflexivity]. cbn [bind].
    destruct (eol =? SC_EOL_LF) eqn:Hlf.
    + apply Z.eqb_eq in Hlf. subst eol. reflexivity.
    + destruct (eol =? SC_EOL_CR) eqn:Hcr.
      * cbn [cr_rules app apply_rules orb].
        destruct (replaceAll t4 _ _) as [t5|]; [|reflexivity]. cbn [bind].
        destruct (replaceAll t5 _ _) as [t6|]; reflexivity.
      * cbn [apply_rules bind orb]. destruct (eol =? SC_EOL_CRLF); reflexivity.
Qed.

Lemma ends_with_backslash_prefix :
  forall wholeWord wordStart a,
    ends_with_backslash a = false ->
    ends_with_backslash (word_prefix wholeWord wordStart ++ a) = false.
Proof.
  intros ww ws a Ha. destruct a as [|x a].
  - rewrite app_nil_r. unfold word_prefix. destruct (ww || ws); reflexivity.
  - rewrite ends_with_backslash_app by discriminate. assumption.
Qed.

(** A token that splits from its neighbours is translated on its own, and
    so are the text before it and the text after it. *)
Lemma translateRegExpr_token :
  forall H a b wholeWord wordStart eolMode rxOptions nobs tok,
    token_splits nobs (rewrite_rules (wholeWord || wordStart) eolMode) tok = true ->
    (nobs = true -> ends_with_backslash a = false) ->
    exists L tok' R,
      apply_rules (rewrite_rules (wholeWord || wordStart) eolMode)
        (word_prefix wholeWord wordStart ++ a) = Some L
      /\ apply_rules (rewrite_rules (wholeWord || wordStart) eolMode) tok = Some tok'
      /\ apply_rules (rewrite_rules (wholeWord || wordStart) eolMode)
           (b ++ word_suffix wholeWord wordStart) = Some R
      /\ translateRegExpr H (a ++ tok ++ b) wholeWord wordStart eolMode rxOptions
         = Some (L ++ tok' ++ R, eol_options H eolMode rxOptions).
Proof.
  intros H a b ww ws eol o nobs tok Hok Ha.
  destruct (apply_rules_split _ nobs tok (word_prefix ww ws ++ a) (b ++ word_suffix ww ws) Hok)
    as (L & tok' & R & HL & Htok & HR & Hall).
  { intros Hn. apply ends_with_backslash_prefix. apply Ha. assumption. }
  exists L, tok', R. repeat split; try assumption.
  rewrite translateRegExpr_rules.
  replace (word_prefix ww ws ++ (a ++ tok ++ b) ++ word_suffix ww ws)
    with ((word_prefix ww ws ++ a) ++ tok ++ b ++ word_suffix ww ws)
    by (rewrite <- !app_assoc; reflexivity).
  rewrite Hall. reflexivity.
Qed.

Lemma token_splits_rules :
  forall nobs tok,
    token_splits nobs (rewrite_rules false SC_EOL_LF) tok = true ->
    token_splits nobs (rewrite_rules false SC_EOL_CR) tok = true ->
    token_splits nobs (rewrite_rules true SC_EOL_LF) tok = true ->
    token_splits nobs (rewrite_rules true SC_EOL_CR) tok = true ->
    forall word eolMode, token_splits nobs (rewrite_rules word eolMode) tok = true.
Proof.
  intros nobs tok H1 H2 H3 H4 word eol. unfold rewrite_rules in *.
  change (SC_EOL_LF =? SC_EOL_CR) with false in *.
  change (SC_EOL_CR =? SC_EOL_CR) with true in *.
  destruct word, (eol =? SC_EOL_CR); assumption.
Qed.

Lemma apply_rules_token :
  forall tok tok',
    apply_rules (rewrite_rules false SC_EOL_LF) tok = Some tok' ->
    apply_rules (rewrite_rules false SC_EOL_CR) tok = Some tok' ->
    apply_rules (rewrite_rules true SC_EOL_LF) tok = Some tok' ->
    apply_rules (rewrite_rules true SC_EOL_CR) tok = Some tok' ->
    forall word eolMode, apply_rules (rewrite_rules word eolMode) tok = Some tok'.
Proof.
  intros tok tok' H1 H2 H3 H4 word eol. unfold rewrite_rules in *.
  change (SC_EOL_LF =? SC_EOL_CR) with false in *.
  change (SC_EOL_CR =? SC_EOL_CR) with true in *.
  destruct word, (eol =? SC_EOL_CR); assumption.
Qed.

(** ** Boundary shorthand *)

(** C5: an escaped boundary shorthand (backslash, backslash, [<] or [>]) is
    in the engine text as it is in the pattern, whatever stands before and
    after it, and the text before and after is translated as it would be on
    its own; a shorthand that no backslash precedes becomes the lookaround
    assertion. *)
Theorem translateRegExpr_boundary_shorthand :
  forall H a b wholeWord wordStart eolMode rxOptions,
  exists L R,
    apply_rules (rewrite_rules (wholeWord || wordStart) eolMode)
      (word_prefix wholeWord wordStart ++ a) = Some L
    /\ apply_rules (rewrite_rules (wholeWord || wordStart) eolMode)
         (b ++ word_suffix wholeWord wordStart) = Some R
    /\ translateRegExpr H (a ++ str "\\<" ++ b) wholeWord wordStart eolMode rxOptions
       = Some (L ++ str "\\<" ++ R, eol_options H eolMode rxOptions)
    /\ translateRegExpr H (a ++ str "\\>" ++ b) wholeWord wordStart eolMode rxOptions
       = Some (L ++ str "\\>" ++ R, eol_options H eolMode rxOptions)
    /\ (ends_with_backslash a = false ->
        translateRegExpr H (a ++ str "\<" ++ b) wholeWord wordStart eolMode rxOptions
        = Some (L ++ str "(?<!\w)(?=\w)" ++ R, eol_options H eolMode rxOptions)
        /\ translateRegExpr H (a ++ str "\>" ++ b) wholeWord wordStart eolMode rxOptions
           = Some (L ++ str "(?<=\w)(?!\w)" ++ R, eol_options H eolMode rxOptions)).
Proof.
  intros H a b ww ws eol o.
  destruct (translateRegExpr_token H a b ww ws eol o false (str "\\<"))
    as (L & t1 & R & HL & Ht1 & HR & HT1);
    [apply token_splits_rules; reflexivity|discriminate|].
  rewrite (apply_rules_token (str "\\<") (str "\\<")) in Ht1 by reflexivity.
  inversion Ht1; subst t1; clear Ht1.
  destruct (translateRegExpr_token H a b ww ws eol o false (str "\\>"))
    as (L2 & t2 & R2 & HL2 & Ht2 & HR2 & HT2);
    [apply token_splits_rules; reflexivity|discriminate|].
  rewrite (apply_rules_token (str "\\>") (str "\\>")) in Ht2 by reflexivity.
  inversion Ht2; subst t2; clear Ht2.
  rewrite HL in HL2. rewrite HR in HR2. inversion HL2; inversion HR2; subst L2 R2.
  exists L, R. repeat (split; [assumption|]).
  intros Ha. split.
  - destruct (translateRegExpr_token H a b ww ws eol o true (str "\<"))
      as (L3 & t3 & R3 & HL3 & Ht3 & HR3 & HT3);
      [apply token_splits_rules; reflexivity|intros _; assumption|].
    rewrite (apply_rules_token (str "\<") (str "(?<!\w)(?=\w)")) in Ht3 by reflexivity.
    inversion Ht3; subst t3.
    rewrite HL in HL3. rewrite HR in HR3. inversion HL3; inversion HR3; subst L3 R3.
    assumption.
  - destruct (translateRegExpr_token H a b ww ws eol o true (str "\>"))
      as (L3 & t3 & R3 & HL3 & Ht3 & HR3 & HT3);
      [apply token_splits_rules; reflexivity|intros _; assumption|].
    rewrite (apply_rules_token (str "\>") (str "(?<=\w)(?!\w)")) in Ht3 by reflexivity.
    inversion Ht3; subst t3.
    rewrite HL in HL3. rewrite HR in HR3. inversion HL3; inversion HR3; subst L3 R3.
    assumption.
Qed.

Lemma translateRegExpr_boundary_shorthand_witness :
  translateRegExpr onigmo_h (str "a\\<b") false false SC_EOL_LF 0
    = Some (str "a\\<b", 0)
  /\ translateRegExpr onigmo_h (str "a\\>b") false false SC_EOL_LF 0
     = Some (str "a\\>b", 0)
  /\ translateRegExpr onigmo_h (str "a\<b") false false SC_EOL_LF 0
     = Some (str "a(?<!\w)(?=\w)b", 0)
  /\ translateRegExpr onigmo_h (str "a\>b") false false SC_EOL_LF 0
     = Some (str "a(?<=\w)(?!\w)b", 0).
Proof.
  destruct (translateRegExpr_boundary_shorthand onigmo_h (str "a") (str "b")
              false false SC_EOL_LF 0) as (L & R & HL & HR & H1 & H2 & H3).
  destruct (H3 eq_refl) as [H4 H5].
  vm_compute in HL. vm_compute in HR.
  inversion HL; inversion HR; subst L R.
  repeat split; assumption.
Defined.

(** ** End-of-line modes *)

Lemma ONIG_OPTION_OFF_clears :
  forall options regopt, Z.land (ONIG_OPTION_OFF options regopt) regopt = 0.
Proof.
  intros options regopt. unfold ONIG_OPTION_OFF.
  rewrite <- Z.land_assoc, (Z.land_comm (Z.lnot regopt)), Z.land_lnot_diag.
  apply Z.land_0_r.
Qed.

Lemma ONIG_OPTION_ON_sets :
  forall options regopt, Z.land (ONIG_OPTION_ON options regopt) regopt = regopt.
Proof.
  intros options regopt. unfold ONIG_OPTION_ON.
  apply Z.bits_inj'. intros n Hn.
  rewrite Z.land_spec, Z.lor_spec.
  destruct (Z.testbit options n), (Z.testbit regopt n); reflexivity.
Qed.

(** C6 (as amended): with [eolMode] CR a [$] becomes [(?=\r)] when no
    backslash stands immediately before it, and a [$] with a backslash
    immediately before it stays as it is, with that backslash, whatever
    stands before the backslash (also another backslash); the text before
    and after is translated as on its own.  LF and CR clear the engine's CRLF
    option; CRLF sets it, and the text is then the one the LF mode gives,
    which is the result of the rules before the switch. *)
Theorem translateRegExpr_eol_mode :
  forall H p a b wholeWord wordStart rxOptions,
    (exists t,
       translateRegExpr H p wholeWord wordStart SC_EOL_LF rxOptions
         = Some (t, ONIG_OPTION_OFF rxOptions (ONIG_OPTION_NEWLINE_CRLF H))
       /\ translateRegExpr H p wholeWord wordStart SC_EOL_CRLF rxOptions
          = Some (t, ONIG_OPTION_ON rxOptions (ONIG_OPTION_NEWLINE_CRLF H))
       /\ apply_rules ((if wholeWord || wordStart then word_rules else []) ++ boundary_rules)
            (word_prefix wholeWord wordStart ++ p ++ word_suffix wholeWord wordStart)
          = Some t)
    /\ (exists t,
          translateRegExpr H p wholeWord wordStart SC_EOL_CR rxOptions
            = Some (t, ONIG_OPTION_OFF rxOptions (ONIG_OPTION_NEWLINE_CRLF H)))
    /\ Z.land (ONIG_OPTION_OFF rxOptions (ONIG_OPTION_NEWLINE_CRLF H))
         (ONIG_OPTION_NEWLINE_CRLF H) = 0
    /\ Z.land (ONIG_OPTION_ON rxOptions (ONIG_OPTION_NEWLINE_CRLF H))
         (ONIG_OPTION_NEWLINE_CRLF H) = ONIG_OPTION_NEWLINE_CRLF H
    /\ exists L R,
         apply_rules (rewrite_rules (wholeWord || wordStart) SC_EOL_CR)
           (word_prefix wholeWord wordStart ++ a) = Some L
         /\ apply_rules (rewrite_rules (wholeWord || wordStart) SC_EOL_CR)
              (b ++ word_suffix wholeWord wordStart) = Some R
         /\ translateRegExpr H (a ++ str "\$" ++ b) wholeWord wordStart SC_EOL_CR rxOptions
            = Some (L ++ str "\$" ++ R,
                    ONIG_OPTION_OFF rxOptions (ONIG_OPTION_NEWLINE_CRLF H))
         /\ (ends_with_backslash a = false ->
             translateRegExpr H (a ++ str "$" ++ b) wholeWord wordStart SC_EOL_CR rxOptions
             = Some (L ++ str "(?=\r)" ++ R,
                     ONIG_OPTION_OFF rxOptions (ONIG_OPTION_NEWLINE_CRLF H))).
Proof.
  intros H p a b ww ws o.
  split; [|split; [|split; [|split]]].
  - destruct (apply_rules_total (rewrite_rules (ww || ws) SC_EOL_LF)
                (word_prefix ww ws ++ p ++ word_suffix ww ws)
                (rewrite_rules_nonempty _ _)) as [t Ht].
    exists t. rewrite !translateRegExpr_rules.
    unfold rewrite_rules in *.
    change (SC_EOL_LF =? SC_EOL_CR) with false in *.
    change (SC_EOL_CRLF =? SC_EOL_CR) with false.
    rewrite app_nil_r in Ht. rewrite !app_nil_r.
    rewrite Ht. repeat split; reflexivity.
  - destruct (apply_rules_total (rewrite_rules (ww || ws) SC_EOL_CR)
                (word_prefix ww ws ++ p ++ word_suffix ww ws)
                (rewrite_rules_nonempty _ _)) as [t Ht].
    exists t. rewrite translateRegExpr_rules, Ht. reflexivity.
  - apply ONIG_OPTION_OFF_clears.
  - apply ONIG_OPTION_ON_sets.
  - destruct (translateRegExpr_token H a b ww ws SC_EOL_CR o false (str "\$"))
      as (L & t1 & R & HL & Ht1 & HR & HT1);
      [apply token_splits_rules; reflexivity|discriminate|].
    rewrite (apply_rules_token (str "\$") (str "\$")) in Ht1 by reflexivity.
    inversion Ht1; subst t1; clear Ht1.
    exists L, R. repeat (split; [assumption|]).
    intros Ha.
    destruct (translateRegExpr_token H a b ww ws SC_EOL_CR o true (str "$"))
      as (L3 & t3 & R3 & HL3 & Ht3 & HR3 & HT3);
      [destruct (ww || ws); reflexivity|intros _; assumption|].
    assert (Ht : apply_rules (rewrite_rules (ww || ws) SC_EOL_CR) (str "$")
                 = Some (str "(?=\r)")) by (destruct (ww || ws); reflexivity).
    rewrite Ht in Ht3. inversion Ht3; subst t3.
    rewrite HL in HL3. rewrite HR in HR3. inversion HL3; inversion HR3; subst L3 R3.
    assumption.
Qed.

Lemma translateRegExpr_eol_mode_witness :
  translateRegExpr onigmo_h (str "a\$b") false false SC_EOL_CR 131072
    = Some (str "a\$b", 0)
  /\ translateRegExpr onigmo_h (str "a$b") false false SC_EOL_CR 131072
     = Some (str "a(?=\r)b", 0).
Proof.
  destruct (translateRegExpr_eol_mode onigmo_h (str "a$b") (str "a") (str "b")
              false false 131072) as (_ & _ & _ & _ & L & R & HL & HR & H1 & H2).
  specialize (H2 eq_refl).
  vm_compute in HL. vm_compute in HR.
  inversion HL; inversion HR; subst L R.
  split; assumption.
Defined.

(** C6 (as stated) fails: in [a\\$] the backslash before the [$] is itself
    escaped, the [$] is an anchor that nothing escapes, and the CR mode
    leaves it as it is: the first call makes [a\\(?=\r)] of the pattern and
    the second one puts [\$] back. *)
Lemma translateRegExpr_eol_mode_escaped_backslash :
  trailing_backslashes (str "a\\") = 2%nat
  /\ Nat.even (trailing_backslashes (str "a\\")) = true
  /\ replaceAll (str "a\\" ++ str "$") (str "$") (str "(?=\r)")
     = Some (str "a\\" ++ str "(?=\r)")
  /\ replaceAll (str "a\\" ++ str "(?=\r)") (str "\(?=\r)") (str "\$")
     = Some (str "a\\" ++ str "$")
  /\ translateRegExpr onigmo_h (str "a\\" ++ str "$") false false SC_EOL_CR 131072
     = Some (str "a\\" ++ str "$", 0)
  /\ translateRegExpr onigmo_h (str "a\\" ++ str "$") false false SC_EOL_CR 131072
     <> Some (str "a\\" ++ str "(?=\r)", 0).
Proof.
  split; [reflexivity|]. split; [reflexivity|].
  split; [vm_compute; reflexivity|]. split; [vm_compute; reflexivity|].
  split; [vm_compute; reflexivity|vm_compute; discriminate].
Qed.

(** ** Whole-word search *)

Lemma Rewritten_dots :
  forall p, Rewritten (str ".") (str "\w") p (flat_map dot_to_word p).
Proof.
  induction p as [|c p IH]; simpl.
  - constructor.
  - unfold dot_to_word at 1. destruct (Ascii.eqb c (ch ".")) eqn:Hc.
    + apply Ascii.eqb_eq in Hc. subst c.
      apply (Rewritten_hit (str ".") (str "\w") p). assumption.
    + simpl. constructor; [|assumption].
      cbn [prefixb]. rewrite Ascii.eqb_sym. fold (ch "."). rewrite Hc. reflexivity.
Qed.

Lemma Rewritten_Forall :
  forall (P : ascii -> Prop) from to s out,
    Forall P to -> Rewritten from to s out -> Forall P s -> Forall P out.
Proof.
  intros P from to s out Hto HR. induction HR as [|rest out HR IH|c s out Hc HR IH]; intros Hs.
  - constructor.
  - apply Forall_app in Hs. destruct Hs as [_ Hs].
    apply Forall_app. split; [assumption|apply IH; assumption].
  - inversion Hs; subst. constructor; [assumption|apply IH; assumption].
Qed.

Lemma apply_rules_Forall :
  forall (P : ascii -> Prop) rules s out,
    Forall (fun r => fst r <> [] /\ Forall P (snd r)) rules ->
    apply_rules rules s = Some out -> Forall P s -> Forall P out.
Proof.
  intros P rules; induction rules as [|[from to] rules IH]; intros s out Hr Ha Hs.
  - inversion Ha; subst. assumption.
  - inversion Hr as [|r rs [Hne Hto] Hrs]; subst. simpl in *.
    destruct (replaceAll s from to) as [s1|] eqn:Hs1; [|discriminate]. simpl in Ha.
    apply (IH s1 out Hrs Ha).
    apply (Rewritten_Forall P from to s s1 Hto); [|assumption].
    apply replaceAll_Rewritten; assumption.
Qed.

Lemma dot_to_word_no_dot :
  forall p, Forall (fun c => c <> ch ".") (flat_map dot_to_word p).
Proof.
  induction p as [|c p IH]; simpl; [constructor|].
  apply Forall_app. split; [|assumption].
  unfold dot_to_word. destruct (Ascii.eqb c (ch ".")) eqn:Hc.
  - repeat constructor; discriminate.
  - constructor; [apply Ascii.eqb_neq; assumption|constructor].
Qed.

Lemma later_rules_no_dot :
  forall eolMode,
    Forall (fun r => fst r <> [] /\ Forall (fun c => c <> ch ".") (snd r))
           (boundary_rules ++ (if eolMode =? SC_EOL_CR then cr_rules else [])).
Proof.
  intros eolMode. destruct (eolMode =? SC_EOL_CR); simpl;
    repeat (constructor; [split; [discriminate|repeat constructor; discriminate]|]);
    constructor.
Qed.

(** C3 (as amended): with [wholeWord] the engine text is [\b], then the
    pattern in which every [.] (escaped or not, inside a character class or
    not) has become [\w] and which the later rules have rewritten, then
    [\b]; no [.] is left in the engine text. *)
Theorem translateRegExpr_whole_word :
  forall H p wordStart eolMode rxOptions,
  exists M,
    translateRegExpr H p true wordStart eolMode rxOptions
      = Some (str "\b" ++ M ++ str "\b", eol_options H eolMode rxOptions)
    /\ apply_rules (boundary_rules ++ (if eolMode =? SC_EOL_CR then cr_rules else []))
         (flat_map dot_to_word p) = Some M
    /\ ~ In (ch ".") (str "\b" ++ M ++ str "\b").
Proof.
  intros H p ws eol o.
  destruct (apply_rules_split (rewrite_rules true eol) false (str "\b") [] (p ++ str "\b"))
    as (L & t1 & R & HL & Ht1 & HR & HT1);
    [apply token_splits_rules; reflexivity|discriminate|].
  rewrite (apply_rules_token (str "\b") (str "\b")) in Ht1 by reflexivity.
  inversion Ht1; subst t1; clear Ht1.
  rewrite (apply_rules_token [] []) in HL by reflexivity.
  inversion HL; subst L; clear HL.
  destruct (apply_rules_split (rewrite_rules true eol) false (str "\b") p [])
    as (M & t2 & E & HM & Ht2 & HE & Hsplit);
    [apply token_splits_rules; reflexivity|discriminate|].
  rewrite (apply_rules_token (str "\b") (str "\b")) in Ht2 by reflexivity.
  inversion Ht2; subst t2; clear Ht2.
  rewrite (apply_rules_token [] []) in HE by reflexivity.
  inversion HE; subst E; clear HE.
  rewrite app_nil_r in Hsplit. rewrite Hsplit in HR.
  inversion HR; subst R; clear HR.
  assert (HM' : apply_rules (boundary_rules ++ (if eol =? SC_EOL_CR then cr_rules else []))
                  (flat_map dot_to_word p) = Some M).
  { unfold rewrite_rules, word_rules in HM. cbn [app apply_rules] in HM.
    assert (Hne : str "." <> []) by discriminate.
    rewrite (Rewritten_replaceAll _ _ _ _ Hne (Rewritten_dots p)) in HM.
    exact HM. }
  exists M. split; [|split].
  - rewrite translateRegExpr_rules. unfold word_prefix, word_suffix.
    cbn [orb]. cbn [app] in HT1. rewrite HT1. reflexivity.
  - assumption.
  - assert (HF : Forall (fun c => c <> ch ".") M).
    { apply (apply_rules_Forall _ _ _ _ (later_rules_no_dot eol) HM').
      apply dot_to_word_no_dot. }
    intros Hin. apply in_app_or in Hin. destruct Hin as [Hin | Hin].
    + simpl in Hin. destruct Hin as [Hin | [Hin | []]]; discriminate.
    + apply in_app_or in Hin. destruct Hin as [Hin | Hin].
      * rewrite Forall_forall in HF. apply (HF _ Hin). reflexivity.
      * simpl in Hin. destruct Hin as [Hin | [Hin | []]]; discriminate.
Qed.

(** C3 (as stated) fails: the dot inside a character class and the escaped
    dot are rewritten like any other. *)
Lemma translateRegExpr_whole_word_class_dot :
  translateRegExpr onigmo_h (str "[.]\.") true false SC_EOL_LF 0
    = Some (str "\b[\w]\\w\b", 0)
  /\ translateRegExpr onigmo_h (str "[.]\.") true false SC_EOL_LF 0
     <> Some (str "\b[.]\.\b", 0)
  /\ ~ In (ch ".") (str "\b[\w]\\w\b").
Proof.
  split; [vm_compute; reflexivity|]. split.
  - vm_compute. discriminate.
  - simpl. intros Hin.
    repeat (destruct Hin as [Hin | Hin]; [discriminate|]). contradiction.
Qed.

(** ** The reference engine keeps the contracts *)

Lemma offsets_In : forall a b p, In p (offsets a b) <-> a <= p < b.
Proof.
  intros a b p. unfold offsets. rewrite in_map_iff. split.
  - intros (k & Hk & Hin). apply in_seq in Hin. lia.
  - intros Hp. exists (Z.to_nat (p - a)). split; [lia|].
    apply in_seq. lia.
Qed.

Lemma literal_hits_after_start :
  forall H reg docBytes options lo hi,
    hits_after_start (literal_engine H) reg docBytes options lo hi.
Proof.
  intros H reg docBytes options lo hi s Hs. simpl. unfold lit_search.
  destruct reg as [re|]; [|simpl; unfold ONIGERR_INVALID_ARGUMENT; lia].
  destruct ((Z.of_nat (length docBytes) <? s) || (s <? 0));
    [simpl; unfold ONIG_MISMATCH; lia|].
  destruct (s <? hi) eqn:Hlt.
  - destruct (List.find (lit_at re docBytes) (offsets s hi)) as [p|] eqn:Hf;
      [|simpl; unfold ONIG_MISMATCH; lia].
    apply find_some in Hf. destruct Hf as [Hin _].
    apply offsets_In in Hin. simpl. lia.
  - destruct (List.find (lit_at re docBytes) (rev (offsets hi (s + 1)))) as [p|] eqn:Hf;
      [|simpl; unfold ONIG_MISMATCH; lia].
    apply find_some in Hf. destruct Hf as [Hin _].
    apply in_rev in Hin. apply offsets_In in Hin.
    apply Z.ltb_ge in Hlt. simpl. lia.
Qed.

Lemma reach_offsets_In :
  forall s hi p, s <= hi -> (In p (reach_offsets s hi) <-> reach s hi p).
Proof.
  intros s hi p Hs. unfold reach_offsets, reach.
  destruct (s <? hi) eqn:Hlt.
  - apply Z.ltb_lt in Hlt. rewrite offsets_In. lia.
  - apply Z.ltb_ge in Hlt. simpl. lia.
Qed.

Lemma leftmost_searchb_true :
  forall (E : OnigEngine) reg docBytes options lo hi,
    leftmost_searchb E reg docBytes options lo hi = true ->
    leftmost_search E reg docBytes options lo hi.
Proof.
  intros E reg docBytes options lo hi Hb s Hs.
  unfold leftmost_searchb in Hb. rewrite forallb_forall in Hb.
  assert (Hin : In s (offsets lo (hi + 1))) by (apply offsets_In; lia).
  specialize (Hb s Hin). cbv zeta.
  assert (Hno : forall l,
             forallb (fun p => negb (fst (onig_search E reg docBytes p hi options) =? p)) l
             = true ->
             forall p, In p l -> ~ hit E reg docBytes options hi p).
  { intros l Hall p Hp Hhit. rewrite forallb_forall in Hall.
    specialize (Hall p Hp). unfold hit in Hhit. rewrite Hhit, Z.eqb_refl in Hall.
    discriminate. }
  apply orb_true_iff in Hb. destruct Hb as [Hb | Hb].
  - left. apply andb_true_iff in Hb. destruct Hb as [Hr Hall].
    apply Z.eqb_eq in Hr. split; [assumption|].
    intros p Hp. apply (Hno _ Hall). apply reach_offsets_In; [lia|assumption].
  - right.
    repeat (apply andb_true_iff in Hb; let Hx := fresh "Hx" in destruct Hb as [Hb Hx]).
    apply Z.leb_le in Hb. apply orb_true_iff in Hx3. apply Z.eqb_eq in Hx2.
    apply Z.leb_le in Hx1. apply Z.eqb_eq in Hx0.
    split.
    { unfold reach. destruct Hx3 as [Hlt | Heq];
        [apply Z.ltb_lt in Hlt|apply Z.eqb_eq in Heq]; lia. }
    split; [exact Hx2|]. split; [assumption|]. split; [assumption|].
    intros p Hp. apply (Hno _ Hx). apply offsets_In. assumption.
Qed.

Lemma leftmost_hits_after_start :
  forall (E : OnigEngine) reg docBytes options lo hi,
    leftmost_search E reg docBytes options lo hi ->
    hits_after_start E reg docBytes options lo hi.
Proof.
  intros E reg docBytes options lo hi Hl s Hs Hr.
  destruct (Hl s Hs) as [[Hm _] | [Hr' _]].
  - rewrite Hm in Hr. unfold ONIG_MISMATCH in Hr. lia.
  - unfold reach in Hr'. lia.
Qed.

(** ** The scan for the last occurrence *)

Lemma findprevious_loop_spec :
  forall (E : OnigEngine) docBytes rangeBeg rangeEnd opts fuel
         (st : OniguRegExEngine E) result b,
    hits_after_start E (m_RegExpr st) docBytes opts rangeBeg rangeEnd ->
    rangeBeg <= b ->
    onig_search E (m_RegExpr st) docBytes b rangeEnd opts = (result, m_Region st) ->
    (Z.to_nat (rangeEnd + 1 - b) <= fuel)%nat ->
    exists st',
      findprevious_loop fuel st docBytes rangeEnd opts result b = Some st'
      /\ m_RegExpr st' = m_RegExpr st
      /\ (((result < 0 \/ rangeEnd < b)
           /\ m_MatchPos st' = m_MatchPos st /\ m_MatchLen st' = m_MatchLen st)
          \/ exists b', b <= b' <= rangeEnd
               /\ last_hit E (m_RegExpr st) docBytes opts rangeEnd b'
                    (m_MatchPos st') (m_MatchLen st')).
Proof.
  intros E docBytes rangeBeg rangeEnd opts fuel.
  induction fuel as [|fuel IH]; intros st result b Hc Hb Hs Hfuel.
  - exists st. simpl.
    destruct ((0 <=? result) && (b <=? rangeEnd)) eqn:Hcond.
    + apply andb_true_iff in Hcond. destruct Hcond as [_ Hle].
      apply Z.leb_le in Hle. lia.
    + split; [reflexivity|]. split; [reflexivity|]. left.
      apply andb_false_iff in Hcond.
      destruct Hcond as [Hr | Hr]; [apply Z.leb_gt in Hr|apply Z.leb_gt in Hr]; auto.
  - simpl.
    destruct ((0 <=? result) && (b <=? rangeEnd)) eqn:Hcond.
    + apply andb_true_iff in Hcond. destruct Hcond as [Hr Hle].
      apply Z.leb_le in Hr. apply Z.leb_le in Hle.
      assert (Hbr : b <= result).
      { specialize (Hc b). rewrite Hs in Hc. simpl in Hc. apply Hc; lia. }
      set (len := slot (end_ (m_Region st)) 0 - result).
      set (nb := result + Z.max 1 len).
      assert (Hnb : b < nb) by (unfold nb; lia).
      destruct (onig_search E (m_RegExpr st) docBytes nb rangeEnd opts) as [r2 reg2] eqn:Hs2.
      destruct (IH (set_Region (set_match st result len) reg2) r2 nb)
        as (st' & Hloop & Hre & Hpost); try assumption; try lia.
      exists st'. split; [exact Hloop|]. split; [exact Hre|]. right.
      destruct Hpost as [(Hstop & Hpos & Hlen) | (b' & Hb' & Hlast)].
      * exists b. split; [lia|]. unfold last_hit. rewrite Hs. simpl.
        simpl in Hpos, Hlen. rewrite Hpos, Hlen. fold len. fold nb.
        repeat split; try lia.
        destruct Hstop as [Hneg | Hover]; [right|left; assumption].
        rewrite Hs2. simpl. assumption.
      * exists b'. split; [lia|]. exact Hlast.
    + exists st. split; [reflexivity|]. split; [reflexivity|]. left.
      apply andb_false_iff in Hcond.
      destruct Hcond as [Hr | Hr]; [apply Z.leb_gt in Hr|apply Z.leb_gt in Hr]; auto.
Qed.

(** C7: the scan returns.  For an engine whose forward search never reports
    a hit before the start it is given, each hit moves the lower bound to
    [matchStart + max(1, matchLength)], which is beyond the previous bound, so
    that [rangeEnd + 1 - rangeBeg] iterations are enough; the match stored at
    the end is the last hit: after it the bound is beyond [rangeEnd] or the
    search reports no hit. *)
Theorem findprevious_loop_terminates :
  forall (E : OnigEngine) (st : OniguRegExEngine E) docBytes rangeBeg rangeEnd opts
         result fuel,
    hits_after_start E (m_RegExpr st) docBytes opts rangeBeg rangeEnd ->
    onig_search E (m_RegExpr st) docBytes rangeBeg rangeEnd opts = (result, m_Region st) ->
    (Z.to_nat (rangeEnd + 1 - rangeBeg) <= fuel)%nat ->
    (forall b r, rangeBeg <= b <= rangeEnd ->
       fst (onig_search E (m_RegExpr st) docBytes b rangeEnd opts) = r -> 0 <= r ->
       forall len, b < r + Z.max 1 len)
    /\ (forall f (st0 : OniguRegExEngine E) r b,
          0 <= r -> b <= rangeEnd ->
          findprevious_loop (S f) st0 docBytes rangeEnd opts r b
          = let len := slot (end_ (m_Region st0)) 0 - r in
            let next := onig_search E (m_RegExpr st0) docBytes (r + Z.max 1 len)
                          rangeEnd opts in
            findprevious_loop f (set_Region (set_match st0 r len) (snd next))
              docBytes rangeEnd opts (fst next) (r + Z.max 1 len))
    /\ exists st',
         findprevious_loop fuel st docBytes rangeEnd opts result rangeBeg = Some st'
         /\ (((result < 0 \/ rangeEnd < rangeBeg)
              /\ m_MatchPos st' = m_MatchPos st /\ m_MatchLen st' = m_MatchLen st)
             \/ exists b, rangeBeg <= b <= rangeEnd
                  /\ last_hit E (m_RegExpr st) docBytes opts rangeEnd b
                       (m_MatchPos st') (m_MatchLen st')).
Proof.
  intros E st docBytes rangeBeg rangeEnd opts result fuel Hc Hs Hfuel.
  split; [|split].
  - intros b r Hb Hr Hpos len. specialize (Hc b Hb). rewrite Hr in Hc. lia.
  - intros f st0 r b Hr Hb. simpl.
    assert (Hcond : (0 <=? r) && (b <=? rangeEnd) = true).
    { apply andb_true_iff. split; apply Z.leb_le; assumption. }
    rewrite Hcond.
    destruct (onig_search E (m_RegExpr st0) docBytes
                (r + Z.max 1 (slot (end_ (m_Region st0)) 0 - r)) rangeEnd opts);
      reflexivity.
  - destruct (findprevious_loop_spec E docBytes rangeBeg rangeEnd opts fuel st result rangeBeg)
      as (st' & Hloop & _ & Hpost); try assumption; try lia.
    exists st'. split; assumption.
Qed.


Lemma findprevious_loop_terminates_witness :
  exists st',
    findprevious_loop 14 scan_start (bytes demo_doc) 13 320 3 0 = Some st'
    /\ (((3 < 0 \/ 13 < 0)
         /\ m_MatchPos st' = m_MatchPos scan_start
         /\ m_MatchLen st' = m_MatchLen scan_start)
        \/ exists b, 0 <= b <= 13
             /\ last_hit (literal_engine onigmo_h) (m_RegExpr scan_start) (bytes demo_doc)
                  320 13 b (m_MatchPos st') (m_MatchLen st')).
Proof.
  refine (proj2 (proj2 (findprevious_loop_terminates (literal_engine onigmo_h) scan_start
                          (bytes demo_doc) 0 13 320 3 14 _ _ _))).
  - apply literal_hits_after_start.
  - vm_compute. reflexivity.
  - vm_compute. lia.
Defined.

(** ** Forward and backward search over one range *)

Section Scan.

Variable E : OnigEngine.
Variable reg : option (OnigRegex E).
Variable docBytes : list ascii.
Variables options hi : Z.

Local Notation "'Hit'" := (hit E reg docBytes options hi).
Local Notation "'First'" := (first_hit E reg docBytes options hi).
Local Notation "'Resume'" := (resume E reg docBytes options hi).
Local Notation "'Scan'" := (scan E reg docBytes options hi).

Lemma resume_advances : forall p, p < Resume p.
Proof. intros p. unfold resume. lia. Qed.

Lemma first_hit_unique : forall b p q, First b p -> First b q -> p = q.
Proof.
  intros b p q (Hrp & Hp & Hbp) (Hrq & Hq & Hbq). unfold reach in *.
  destruct (Z.lt_trichotomy p q) as [Hlt | [Heq | Hgt]]; [|assumption|].
  - exfalso. apply (Hbq p); [lia|assumption].
  - exfalso. apply (Hbp q); [lia|assumption].
Qed.

Lemma scan_first : forall b p, Scan b p -> exists f, First b f.
Proof.
  intros b p Hs. destruct Hs as [b p Hf _ | b p q Hf _ _]; exists p; assumption.
Qed.

Lemma scan_bounds : forall b p, Scan b p -> b <= hi -> b <= p <= hi /\ Hit p.
Proof.
  intros b p Hs.
  induction Hs as [b p (Hr & Hh & _) _ | b p q (Hr & Hh & _) Hle Hs IH]; intros Hb.
  - unfold reach in Hr. split; [lia|assumption].
  - destruct (IH Hle) as [Hq Hhq]. pose proof (resume_advances p) as Hadv.
    unfold reach in Hr. split; [lia|assumption].
Qed.

Lemma scan_unique : forall b p, Scan b p -> forall q, Scan b q -> p = q.
Proof.
  intros b p Hs.
  induction Hs as [b p Hf Hstop | b p r Hf Hle Hs IH]; intros q Hq.
  - destruct Hq as [b q Hf' Hstop' | b p' q Hf' Hle' Hs'].
    + exact (first_hit_unique _ _ _ Hf Hf').
    + exfalso. rewrite <- (first_hit_unique _ _ _ Hf Hf') in *.
      destruct Hstop as [Hover | Hnone]; [lia|].
      destruct (scan_first _ _ Hs') as (f & Hrf & Hhf & _).
      apply (Hnone f); assumption.
  - destruct Hq as [b q Hf' Hstop' | b p' q Hf' Hle' Hs'].
    + exfalso. rewrite <- (first_hit_unique _ _ _ Hf Hf') in *.
      destruct Hstop' as [Hover | Hnone]; [lia|].
      destruct (scan_first _ _ Hs) as (f & Hrf & Hhf & _).
      apply (Hnone f); assumption.
    + rewrite <- (first_hit_unique _ _ _ Hf Hf') in Hs'. apply IH. exact Hs'.
Qed.

(** Every match of the range starts before the point at which the scan would
    resume after its last hit. *)
Lemma scan_covers :
  forall b p, Scan b p -> b <= hi ->
    forall q, b <= q < hi -> Hit q -> q < Resume p.
Proof.
  intros b p Hs.
  induction Hs as [b p Hf Hstop | b p r Hf Hle Hs IH]; intros Hb q Hq Hh.
  - destruct Hstop as [Hover | Hnone]; [lia|].
    destruct (Z.lt_ge_cases q (Resume p)) as [Hlt | Hge]; [assumption|].
    exfalso. apply (Hnone q); [unfold reach; lia|assumption].
  - destruct (Z.lt_ge_cases q (Resume p)) as [Hlt | Hge].
    + destruct (scan_bounds _ _ Hs Hle) as [Hr _].
      pose proof (resume_advances r) as Hadv. lia.
    + apply IH; [assumption|lia|assumption].
Qed.

Lemma scan_after_first : forall b p f, Scan b p -> b <= hi -> First b f -> f <= p.
Proof.
  intros b p f Hs Hb Hf.
  destruct Hs as [b p Hf' _ | b p' q Hf' Hle Hs'].
  - rewrite (first_hit_unique _ _ _ Hf Hf'). lia.
  - rewrite (first_hit_unique _ _ _ Hf Hf').
    destruct (scan_bounds _ _ Hs' Hle) as [Hr _].
    pose proof (resume_advances p') as Hadv. lia.
Qed.

(** With one match in [b, hi) the scan ends on it, unless the scan resumes
    exactly at [hi] and the pattern matches there. *)
Lemma scan_single :
  forall b q p, b < hi -> b <= q < hi -> Hit q ->
    (forall q', b <= q' < hi -> Hit q' -> q' = q) ->
    Scan b p ->
    (Resume q = hi /\ Hit hi /\ p = hi) \/ (~ (Resume q = hi /\ Hit hi) /\ p = q).
Proof.
  intros b q p Hb Hq Hh Huniq Hs.
  assert (Hfq : forall f, First b f -> f = q).
  { intros f (Hr & Hhf & _). unfold reach in Hr. apply Huniq; [lia|assumption]. }
  destruct Hs as [b p Hf Hstop | b p' p Hf Hle Hs'].
  - right. rewrite (Hfq p Hf) in *. split; [|reflexivity].
    intros [Hres Hhi]. destruct Hstop as [Hover | Hnone]; [lia|].
    apply (Hnone hi); [unfold reach; lia|assumption].
  - left. rewrite (Hfq p' Hf) in *. pose proof (resume_advances q) as Hadv.
    assert (Hat : forall f, First (Resume q) f -> Resume q = hi /\ f = hi).
    { intros f (Hr & Hhf & _). unfold reach in Hr.
      destruct (Z.lt_ge_cases f hi) as [Hlt | Hge]; [|lia].
      exfalso. assert (f = q) by (apply Huniq; [lia|assumption]). lia. }
    destruct Hs' as [b' p Hf' _ | b' p'' p Hf' Hle' _].
    + destruct (Hat p Hf') as [Hres Hp]. destruct Hf' as (_ & Hhp & _).
      subst p. auto.
    + exfalso. destruct (Hat p'' Hf') as [Hres Hp]. subst p''.
      pose proof (resume_advances hi). lia.
Qed.

End Scan.

Lemma search_bounds_swap :
  forall doc minPos maxPos lo hi,
    search_bounds doc minPos maxPos = (lo, hi, false) -> lo < hi ->
    search_bounds doc maxPos minPos = (lo, hi, true).
Proof.
  intros doc minPos maxPos lo hi Hb Hlt. unfold search_bounds in *.
  destruct (MovePositionOutsideChar doc maxPos 1 false <? MovePositionOutsideChar doc minPos 1 false)
    eqn:Hcmp; inversion Hb; subst.
  assert (Hlt' : (MovePositionOutsideChar doc minPos 1 false
                  <? MovePositionOutsideChar doc maxPos 1 false) = true)
    by (apply Z.ltb_lt; assumption).
  rewrite Hlt'. reflexivity.
Qed.

Lemma FindText_search_range :
  forall (H : OnigOptions) (E : OnigEngine) fuel (st st1 : OniguRegExEngine E) doc
         minPos maxPos c p cs word ws flags len lo hi fp text opts,
    search_bounds doc minPos maxPos = (lo, hi, fp) ->
    translateRegExpr H (c :: p) word ws (eolMode doc)
      (search_options H flags cs lo hi (Length doc)) = Some (text, opts) ->
    prepared st text opts = Some st1 ->
    FindText H fuel st doc minPos maxPos (Some (c :: p)) cs word ws flags len
    = search_range fuel st1 doc lo hi fp opts len.
Proof.
  intros H E fuel st st1 doc minPos maxPos c p cs word ws flags len lo hi fp text opts
         Hb Ht Hprep.
  unfold FindText. rewrite Hb, Ht. simpl. unfold prepared in Hprep.
  destruct (if bReCompile st text opts then recompile st text opts else inl st) as [s|s];
    [|discriminate].
  inversion Hprep; subst. reflexivity.
Qed.

Lemma findprevious_loop_stops :
  forall (E : OnigEngine) fuel (st : OniguRegExEngine E) docBytes hi opts result b,
    (0 <=? result) && (b <=? hi) = false ->
    findprevious_loop fuel st docBytes hi opts result b = Some st.
Proof.
  intros E fuel st docBytes hi opts result b Hcond.
  destruct fuel; simpl; rewrite Hcond; reflexivity.
Qed.

(** The loop performs the scan: entered on a hit, it ends with the last hit
    of the scan stored as the match. *)
Lemma findprevious_loop_scan :
  forall (E : OnigEngine) docBytes lo hi opts fuel (st : OniguRegExEngine E) result b,
    leftmost_search E (m_RegExpr st) docBytes opts lo hi ->
    0 <= lo -> lo <= b <= hi ->
    onig_search E (m_RegExpr st) docBytes b hi opts = (result, m_Region st) ->
    0 <= result ->
    (Z.to_nat (hi + 1 - b) <= fuel)%nat ->
    exists st',
      findprevious_loop fuel st docBytes hi opts result b = Some st'
      /\ scan E (m_RegExpr st) docBytes opts hi b (m_MatchPos st')
      /\ m_MatchLen st' = hit_length E (m_RegExpr st) docBytes opts hi (m_MatchPos st').
Proof.
  intros E docBytes lo hi opts fuel.
  induction fuel as [|fuel IH]; intros st result b Hl Hlo Hb Hs Hres Hfuel; [lia|].
  pose proof (Hl b Hb) as Hat. cbv zeta in Hat. rewrite Hs in Hat. simpl in Hat.
  destruct Hat as [[Hm _] | (Hreach & Hhit & Hend & Hsame & Hnone)];
    [unfold ONIG_MISMATCH in Hm; lia|].
  assert (Hfirst : first_hit E (m_RegExpr st) docBytes opts hi b result).
  { split; [assumption|]. split; assumption. }
  assert (Hbr : b <= result) by (unfold reach in Hreach; lia).
  assert (Hcond : (0 <=? result) && (b <=? hi) = true)
    by (apply andb_true_iff; split; apply Z.leb_le; lia).
  simpl. rewrite Hcond.
  set (len := slot (end_ (m_Region st)) 0 - result).
  set (nb := result + Z.max 1 len).
  assert (Hlen : len = hit_length E (m_RegExpr st) docBytes opts hi result).
  { unfold len, hit_length. rewrite Hsame. reflexivity. }
  assert (Hnb : nb = resume E (m_RegExpr st) docBytes opts hi result).
  { unfold nb, resume. rewrite Hlen. reflexivity. }
  assert (Hadv : b < nb) by (unfold nb; lia).
  destruct (onig_search E (m_RegExpr st) docBytes nb hi opts) as [r2 reg2] eqn:Hs2.
  destruct ((0 <=? r2) && (nb <=? hi)) eqn:Hcond2.
  - apply andb_true_iff in Hcond2. destruct Hcond2 as [Hr2 Hle2].
    apply Z.leb_le in Hr2. apply Z.leb_le in Hle2.
    destruct (IH (set_Region (set_match st result len) reg2) r2 nb)
      as (st' & Hloop & Hscan & Hl'); try assumption; try lia.
    exists st'. split; [exact Hloop|]. simpl in Hscan, Hl'. split; [|exact Hl'].
    apply (scan_next _ _ _ _ _ b result); [assumption| |]; rewrite <- Hnb; assumption.
  - rewrite findprevious_loop_stops by assumption.
    exists (set_Region (set_match st result len) reg2). split; [reflexivity|]. simpl.
    split; [|exact Hlen].
    apply scan_last; [assumption|]. rewrite <- Hnb.
    destruct (Z.lt_ge_cases hi nb) as [Hover | Hin]; [left; assumption|right].
    apply andb_false_iff in Hcond2. destruct Hcond2 as [Hr2 | Hle2];
      [apply Z.leb_gt in Hr2|apply Z.leb_gt in Hle2; lia].
    pose proof (Hl nb ltac:(lia)) as Hat2. cbv zeta in Hat2. rewrite Hs2 in Hat2.
    simpl in Hat2.
    destruct Hat2 as [[_ Hnone2] | (Hreach2 & _)]; [exact Hnone2|].
    unfold reach in Hreach2. lia.
Qed.

Lemma search_range_forward :
  forall (E : OnigEngine) fuel (st : OniguRegExEngine E) doc lo hi opts len,
    0 <= lo <= hi ->
    leftmost_search E (m_RegExpr st) (bytes doc) opts lo hi ->
    exists pos l st',
      search_range fuel st doc lo hi false opts len = Some (pos, l, st')
      /\ (((forall p, reach lo hi p -> ~ hit E (m_RegExpr st) (bytes doc) opts hi p)
           /\ pos = -1 /\ l = 0)
          \/ (first_hit E (m_RegExpr st) (bytes doc) opts hi lo pos
              /\ l = hit_length E (m_RegExpr st) (bytes doc) opts hi pos)).
Proof.
  intros E fuel st doc lo hi opts len Hlo Hl.
  unfold search_range. simpl.
  destruct (onig_search E (m_RegExpr st) (bytes doc) lo hi opts) as [r reg] eqn:Hs.
  specialize (Hl lo ltac:(lia)). cbv zeta in Hl. rewrite Hs in Hl. simpl in Hl. simpl.
  destruct Hl as [[Hm Hnone] | (Hreach & Hhit & Hend & Hsame & Hbefore)].
  - subst r. simpl. eexists _, _, _. split; [reflexivity|]. left. auto.
  - assert (Hr : lo <= r) by (unfold reach in Hreach; lia).
    assert (H1 : (r <? ONIG_MISMATCH) = false) by (apply Z.ltb_ge; unfold ONIG_MISMATCH; lia).
    assert (H2 : (0 <=? r) && (lo <=? hi) = true)
      by (apply andb_true_iff; split; apply Z.leb_le; lia).
    rewrite H1, H2. simpl. eexists _, _, _. split; [reflexivity|]. right.
    split; [split; [assumption|split; assumption]|].
    unfold hit_length. rewrite Hsame. reflexivity.
Qed.

Lemma search_range_backward :
  forall (E : OnigEngine) fuel (st : OniguRegExEngine E) doc lo hi opts len,
    0 <= lo <= hi ->
    leftmost_search E (m_RegExpr st) (bytes doc) opts lo hi ->
    (Z.to_nat (hi + 1 - lo) <= fuel)%nat ->
    exists pos l st',
      search_range fuel st doc lo hi true opts len = Some (pos, l, st')
      /\ (((forall p, reach lo hi p -> ~ hit E (m_RegExpr st) (bytes doc) opts hi p)
           /\ pos = -1 /\ l = 0)
          \/ (scan E (m_RegExpr st) (bytes doc) opts hi lo pos
              /\ l = hit_length E (m_RegExpr st) (bytes doc) opts hi pos)).
Proof.
  intros E fuel st doc lo hi opts len Hlo Hl Hfuel.
  unfold search_range. simpl.
  destruct (onig_search E (m_RegExpr st) (bytes doc) lo hi opts) as [r reg] eqn:Hs.
  pose proof (Hl lo ltac:(lia)) as Hat. cbv zeta in Hat. rewrite Hs in Hat.
  simpl in Hat. simpl.
  destruct Hat as [[Hm Hnone] | (Hreach & _)].
  - subst r. simpl. rewrite findprevious_loop_stops by reflexivity. simpl.
    eexists _, _, _. split; [reflexivity|]. left. auto.
  - assert (Hr : lo <= r) by (unfold reach in Hreach; lia).
    assert (H1 : (r <? ONIG_MISMATCH) = false) by (apply Z.ltb_ge; unfold ONIG_MISMATCH; lia).
    rewrite H1.
    destruct (findprevious_loop_scan E (bytes doc) lo hi opts fuel
                (set_Region (set_match st ONIG_MISMATCH 0) reg) r lo)
      as (st' & Hloop & Hscan & Hlen); try assumption; try lia.
    rewrite Hloop. simpl. eexists _, _, _. split; [reflexivity|]. right.
    simpl in Hscan, Hlen. split; assumption.
Qed.




(** C4 (as stated) fails as well where the one match of the range ends at
    [rangeEnd] and the pattern matches there again.  In [foofoo] the only
    match of [foo] that starts in 0..3 is the one at offset 0; the scan
    resumes at offset 3, which is [rangeEnd], the search from there tries
    that one offset and hits, and the backward search returns offset 3 where
    the forward search returns offset 0. *)
Lemma FindText_backward_match_at_range_end :
  exists s1 s2,
    FindText onigmo_h 4 fresh_instance foofoo_doc 0 3 (Some (str "foo")) true false false 0 0
      = Some (0, 3, s1)
    /\ FindText onigmo_h 4 fresh_instance foofoo_doc 3 0 (Some (str "foo")) true false false 0 0
       = Some (3, 3, s2)
    /\ hit (literal_engine onigmo_h) (m_RegExpr s1) (bytes foofoo_doc) 1344 3 0
    /\ ~ hit (literal_engine onigmo_h) (m_RegExpr s1) (bytes foofoo_doc) 1344 3 1
    /\ ~ hit (literal_engine onigmo_h) (m_RegExpr s1) (bytes foofoo_doc) 1344 3 2
    /\ hit (literal_engine onigmo_h) (m_RegExpr s1) (bytes foofoo_doc) 1344 3 3
    /\ onig_search (literal_engine onigmo_h) (m_RegExpr s1) (bytes foofoo_doc) 3 3 1344
       = (3, {| num_regs := 1; beg := [3]; end_ := [6] |}).
Proof.
  eexists; eexists.
  split; [vm_compute; reflexivity|].
  split; [vm_compute; reflexivity|].
  split; [vm_compute; reflexivity|].
  split; [vm_compute; discriminate|].
  split; [vm_compute; discriminate|].
  split; vm_compute; reflexivity.
Qed.

(** * Further properties *)

(** ** GetHexDigit *)

(** X1: [GetHexDigit] gives -1 or a value from 0 to 15, and it decodes the
    digit of every value from 0 to 15, in upper and in lower case. *)
Theorem GetHexDigit_decodes :
  (forall c, GetHexDigit c = -1 \/ 0 <= GetHexDigit c <= 15)
  /\ (forall n, (n < 16)%nat ->
        GetHexDigit (nth n hex_upper NUL) = Z.of_nat n
        /\ GetHexDigit (nth n hex_lower NUL) = Z.of_nat n).
Proof.
  split.
  - intros [[] [] [] [] [] [] [] []]; vm_compute;
      first [left; reflexivity | right; split; discriminate].
  - intros n Hn.
    do 16 (destruct n as [|n]; [split; reflexivity|]). lia.
Qed.

Lemma GetHexDigit_decodes_witness :
  GetHexDigit (nth 11 hex_upper NUL) = 11 /\ GetHexDigit (nth 11 hex_lower NUL) = 11.
Proof.
  apply (proj2 GetHexDigit_decodes 11%nat). lia.
Defined.

(** ** replaceAll *)

(** X2: with an empty [from] the loop of [replaceAll] never ends: [find]
    keeps answering [lastPos], whatever number of iterations is allowed. *)
Theorem replaceAll_empty_from_never_returns :
  forall source to,
    (forall fuel newString lastPos, (lastPos <= length source)%nat ->
       replaceAll_loop fuel source [] to newString lastPos = None)
    /\ replaceAll source [] to = None.
Proof.
  intros source to.
  assert (Hloop : forall fuel newString lastPos, (lastPos <= length source)%nat ->
            replaceAll_loop fuel source [] to newString lastPos = None).
  { induction fuel as [|fuel IH]; intros newString lastPos Hle;
      assert (Hf : find source [] lastPos = Some lastPos)
        by (unfold find; apply Nat.leb_le in Hle; rewrite Hle;
            destruct (skipn lastPos source); reflexivity);
      simpl; rewrite Hf; [reflexivity|].
    simpl. rewrite Nat.add_0_r. apply IH. assumption. }
  split; [exact Hloop|]. unfold replaceAll. apply Hloop. lia.
Qed.

Lemma replaceAll_empty_from_never_returns_witness :
  replaceAll_loop 100 (str "abc") [] (str "x") [] 3 = None.
Proof.
  apply (proj1 (replaceAll_empty_from_never_returns (str "abc") (str "x"))).
  simpl. lia.
Defined.

(** X3: for a [from] that is not empty [replaceAll] returns, and what it
    returns is the source with the occurrences of [from], taken from left to
    right without overlap, replaced by [to]. *)
Theorem replaceAll_rewrites :
  forall source from to, from <> [] ->
    exists out, replaceAll source from to = Some out /\ Rewritten from to source out.
Proof.
  intros source from to Hne.
  destruct (Rewritten_total from to Hne source) as [out HR].
  exists out. split; [apply Rewritten_replaceAll; assumption|assumption].
Qed.

Lemma replaceAll_rewrites_witness :
  exists out, replaceAll (str "aaa") (str "aa") (str "b") = Some out
              /\ Rewritten (str "aa") (str "b") (str "aaa") out.
Proof.
  apply replaceAll_rewrites. discriminate.
Defined.

Lemma Rewritten_char :
  forall c to s, Rewritten [c] to s (flat_map (char_to c to) s).
Proof.
  intros c to; induction s as [|x s IH]; simpl.
  - constructor.
  - unfold char_to at 1. destruct (Ascii.eqb x c) eqn:Hx.
    + apply Ascii.eqb_eq in Hx. subst x.
      apply (Rewritten_hit [c] to s). assumption.
    + simpl. constructor; [|assumption].
      cbn [prefixb]. rewrite Ascii.eqb_sym, Hx. reflexivity.
Qed.

(** X4: replacing a single character is a substitution character by
    character. *)
Theorem replaceAll_single_char :
  forall source c to,
    replaceAll source [c] to = Some (flat_map (char_to c to) source).
Proof.
  intros source c to. apply Rewritten_replaceAll; [discriminate|apply Rewritten_char].
Qed.

(** X5: [replaceAll] of a concatenation is the concatenation of the results
    when no occurrence of [from] starts in the first part and ends in the
    second. *)
Theorem replaceAll_app :
  forall u v from to u' v', from <> [] ->
    ~ straddle from u v ->
    replaceAll u from to = Some u' -> replaceAll v from to = Some v' ->
    replaceAll (u ++ v) from to = Some (u' ++ v').
Proof.
  intros u v from to u' v' Hne Hns Hu Hv.
  apply Rewritten_replaceAll; [assumption|].
  apply Rewritten_app; try assumption; apply replaceAll_Rewritten; assumption.
Qed.

Lemma replaceAll_app_witness :
  replaceAll (str "xab" ++ str "cab") (str "ab") (str "-") = Some (str "x-" ++ str "c-").
Proof.
  apply replaceAll_app.
  - discriminate.
  - intros (k & Hk & Hku & Hp). simpl in Hk.
    assert (k = 1%nat) by lia. subst k. vm_compute in Hp. discriminate.
  - reflexivity.
  - reflexivity.
Defined.

Lemma Rewritten_same :
  forall from s out, Rewritten from from s out -> out = s.
Proof.
  intros from s out HR. induction HR; subst; reflexivity.
Qed.

Lemma Rewritten_length :
  forall from to s out, length to = length from ->
    Rewritten from to s out -> length out = length s.
Proof.
  intros from to s out Hlen HR. induction HR; simpl; [reflexivity| |lia].
  rewrite !length_app. lia.
Qed.

(** X6: a replacement by a text as long as [from] keeps the length of the
    source, and the replacement of [from] by itself gives the source back. *)
Theorem replaceAll_same_length :
  forall source from to out, from <> [] ->
    replaceAll source from to = Some out ->
    (length to = length from -> length out = length source)
    /\ (to = from -> out = source).
Proof.
  intros source from to out Hne Hr.
  apply replaceAll_Rewritten in Hr; [|assumption]. split.
  - intros Hlen. apply (Rewritten_length from to); assumption.
  - intros ->. apply (Rewritten_same from). assumption.
Qed.

Lemma replaceAll_same_length_witness :
  (length (str "<<") = length (str "\<") -> length (str "a<<b") = length (str "a\<b"))
  /\ (str "<<" = str "\<" -> str "a<<b" = str "a\<b").
Proof.
  apply (replaceAll_same_length (str "a\<b") (str "\<") (str "<<") (str "a<<b")).
  - discriminate.
  - reflexivity.
Defined.

(** ** translateRegExpr *)

(** X7: [translateRegExpr] returns for every pattern, flags and mode; the
    options it leaves depend on the mode only, the text on neither the
    options nor the option bits. *)
Theorem translateRegExpr_returns :
  forall H regExprStr wholeWord wordStart eolMode rxOptions,
    exists text,
      translateRegExpr H regExprStr wholeWord wordStart eolMode rxOptions
        = Some (text, eol_options H eolMode rxOptions)
      /\ forall H' rxOptions',
           translateRegExpr H' regExprStr wholeWord wordStart eolMode rxOptions'
             = Some (text, eol_options H' eolMode rxOptions').
Proof.
  intros H p ww ws eol o.
  destruct (apply_rules_total (rewrite_rules (ww || ws) eol)
              (word_prefix ww ws ++ p ++ word_suffix ww ws)
              (rewrite_rules_nonempty _ _)) as [t Ht].
  exists t. split; [|intros H' o']; rewrite translateRegExpr_rules, Ht; reflexivity.
Qed.

Lemma Rewritten_absent :
  forall f from to s, ~ In f s -> Rewritten (f :: from) to s s.
Proof.
  intros f from to; induction s as [|c s IH]; intros Hnot.
  - constructor.
  - constructor.
    + cbn [prefixb].
      assert (Hfc : Ascii.eqb f c = false)
        by (apply Ascii.eqb_neq; intros ->; apply Hnot; left; reflexivity).
      rewrite Hfc. reflexivity.
    + apply IH. intros Hin. apply Hnot. right. assumption.
Qed.

Lemma apply_rules_absent :
  forall rules s,
    Forall (fun r => match fst r with [] => False | f :: _ => ~ In f s end) rules ->
    apply_rules rules s = Some s.
Proof.
  induction rules as [|[from to] rules IH]; intros s Hr; [reflexivity|].
  inversion Hr as [|r rs Hhead Hrs]; subst. simpl in Hhead.
  destruct from as [|f from]; [contradiction|].
  simpl. rewrite (Rewritten_replaceAll (f :: from) to s s); [|discriminate|].
  - simpl. apply IH. assumption.
  - apply Rewritten_absent. assumption.
Qed.

(** X8: without the word flags a pattern that contains no backslash and, in
    the CR mode, no [$] is the engine text as it stands. *)
Theorem translateRegExpr_plain_pattern :
  forall H regExprStr eolMode rxOptions,
    ~ In backslash regExprStr ->
    (eolMode = SC_EOL_CR -> ~ In (ch "$") regExprStr) ->
    translateRegExpr H regExprStr false false eolMode rxOptions
      = Some (regExprStr, eol_options H eolMode rxOptions).
Proof.
  intros H p eol o Hbs Hd.
  rewrite translateRegExpr_rules.
  unfold word_prefix, word_suffix. cbn [orb app]. rewrite app_nil_r.
  rewrite apply_rules_absent; [reflexivity|].
  unfold rewrite_rules. simpl.
  repeat (constructor; [exact Hbs|]).
  destruct (eol =? SC_EOL_CR) eqn:Hcr; [|constructor].
  apply Z.eqb_eq in Hcr.
  constructor; [exact (Hd Hcr)|]. constructor; [exact Hbs|constructor].
Qed.

Lemma translateRegExpr_plain_pattern_witness :
  translateRegExpr onigmo_h (str "fo.o$") false false SC_EOL_LF 0
    = Some (str "fo.o$", eol_options onigmo_h SC_EOL_LF 0).
Proof.
  apply translateRegExpr_plain_pattern.
  - simpl. intros Hin.
    repeat (destruct Hin as [Hin | Hin]; [discriminate|]). contradiction.
  - discriminate.
Defined.

(** X9: with [wordStart] and without [wholeWord] the engine text is [\b]
    followed by the pattern in which every [.] has become [\w] and which the
    later rules have rewritten; nothing is appended. *)
Theorem translateRegExpr_word_start :
  forall H p eolMode rxOptions,
  exists M,
    translateRegExpr H p false true eolMode rxOptions
      = Some (str "\b" ++ M, eol_options H eolMode rxOptions)
    /\ apply_rules (boundary_rules ++ (if eolMode =? SC_EOL_CR then cr_rules else []))
         (flat_map dot_to_word p) = Some M.
Proof.
  intros H p eol o.
  destruct (apply_rules_split (rewrite_rules true eol) false (str "\b") [] p)
    as (L & t1 & M & HL & Ht1 & HM & HT);
    [apply token_splits_rules; reflexivity|discriminate|].
  rewrite (apply_rules_token (str "\b") (str "\b")) in Ht1 by reflexivity.
  inversion Ht1; subst t1; clear Ht1.
  rewrite (apply_rules_token [] []) in HL by reflexivity.
  inversion HL; subst L; clear HL.
  exists M. split.
  - rewrite translateRegExpr_rules. unfold word_prefix, word_suffix.
    cbn [orb]. rewrite app_nil_r. cbn [app] in HT. rewrite HT. reflexivity.
  - unfold rewrite_rules, word_rules in HM. cbn [app apply_rules] in HM.
    assert (Hne : str "." <> []) by discriminate.
    rewrite (Rewritten_replaceAll _ _ _ _ Hne (Rewritten_dots p)) in HM.
    exact HM.
Qed.

(** ** Loops over a suffix *)

Lemma for_loop_enough :
  forall (A : Type) (body : nat -> A -> nat * A) (n : nat),
    (forall i acc, (i <= fst (body i acc))%nat) ->
    forall (f1 f2 i : nat) (acc : A),
      (n - i <= f1)%nat -> (n - i <= f2)%nat ->
      for_loop f1 n body i acc = for_loop f2 n body i acc.
Proof.
  intros A body n Hadv f1 f2 i acc H1 H2.
  destruct (for_loop_total A body n Hadv (n - i) i acc (Nat.le_refl _)) as [r Hr].
  rewrite (for_loop_more_fuel A body n _ i acc r Hr f1 H1).
  rewrite (for_loop_more_fuel A body n _ i acc r Hr f2 H2).
  reflexivity.
Qed.

Lemma for_loop_shift :
  forall (A : Type) (body1 body2 : nat -> A -> nat * A) (k n : nat) (lift : A -> A),
    (forall i acc, (i < n)%nat ->
       body1 (k + i)%nat (lift acc)
       = ((k + fst (body2 i acc))%nat, lift (snd (body2 i acc)))) ->
    forall fuel i acc,
      for_loop fuel (k + n) body1 (k + i) (lift acc)
      = option_map lift (for_loop fuel n body2 i acc).
Proof.
  intros A body1 body2 k n lift Hbody fuel.
  induction fuel as [|fuel IH]; intros i acc; simpl.
  - assert (Hc : (k + i <? k + n)%nat = (i <? n)%nat).
    { destruct (i <? n)%nat eqn:Hi;
        [apply Nat.ltb_lt in Hi; apply Nat.ltb_lt; lia
        |apply Nat.ltb_ge in Hi; apply Nat.ltb_ge; lia]. }
    rewrite Hc. destruct (i <? n)%nat; reflexivity.
  - assert (Hc : (k + i <? k + n)%nat = (i <? n)%nat).
    { destruct (i <? n)%nat eqn:Hi;
        [apply Nat.ltb_lt in Hi; apply Nat.ltb_lt; lia
        |apply Nat.ltb_ge in Hi; apply Nat.ltb_ge; lia]. }
    rewrite Hc. destruct (i <? n)%nat eqn:Hi; [|reflexivity].
    apply Nat.ltb_lt in Hi. rewrite (Hbody i acc Hi).
    destruct (body2 i acc) as [i' acc']. simpl.
    rewrite plus_n_Sm. apply IH.
Qed.

Lemma at_app_shift :
  forall p t j, at_ (p ++ t) (length p + j) = at_ t j.
Proof.
  intros p t j. unfold at_. rewrite app_nth2 by lia.
  f_equal. lia.
Qed.

Lemma convert_body_shift :
  forall W p t a i acc,
    convert_body W (p ++ t) (length p + i) (a ++ acc)
    = ((length p + fst (convert_body W t i acc))%nat, a ++ snd (convert_body W t i acc)).
Proof.
  intros W p t a i acc. unfold convert_body, convert_hex.
  rewrite !plus_n_Sm, !at_app_shift.
  repeat match goal with
         | |- context [if ?b then _ else _] => destruct b
         end; simpl; rewrite ?app_assoc; reflexivity.
Qed.

(** The expansion of a template whose first pass through the loop body
    consumes exactly the characters of [p]. *)
Lemma convertReplExpr_first_step :
  forall W p t out,
    convert_body W (p ++ t) 0 [] = ((length p - 1)%nat, out) -> p <> [] ->
    convertReplExpr W (p ++ t) = option_map (app out) (convertReplExpr W t).
Proof.
  intros W p t out Hbody Hp. unfold convertReplExpr.
  destruct p as [|x p]; [congruence|].
  rewrite length_app. cbn [length]. cbn [for_loop plus].
  assert (Hlt : (0 <? S (length p + length t))%nat = true) by reflexivity.
  rewrite Hlt. cbn [length] in Hbody. rewrite Hbody.
  replace (S (S (length p) - 1)) with (length (x :: p) + 0)%nat by (simpl; lia).
  replace (S (length p + length t)) with (length (x :: p) + length t)%nat by (simpl; lia).
  replace out with (out ++ []) at 1 by apply app_nil_r.
  rewrite (for_loop_shift _ (convert_body W ((x :: p) ++ t)) (convert_body W t)
             (length (x :: p)) (length t) (app out)).
  - f_equal. apply for_loop_enough; [apply convert_body_advances|lia|lia].
  - intros i acc Hi. apply convert_body_shift.
Qed.

(** ** convertReplExpr, token by token *)

Lemma not_in_Forall :
  forall (c : ascii) s, ~ In c s -> Forall (fun x => x <> c) s.
Proof.
  intros c s Hs. apply Forall_forall. intros x Hin ->. apply Hs. assumption.
Qed.

(** X10: the characters of a template that stand before its first backslash
    are copied, and the rest is expanded as it would be on its own; a
    template without a backslash is its own expansion. *)
Theorem convertReplExpr_plain_prefix :
  forall W s t, ~ In backslash s ->
    convertReplExpr W (s ++ t) = option_map (app s) (convertReplExpr W t)
    /\ convertReplExpr W s = Some s.
Proof.
  intros W s t Hs.
  assert (HF : Forall (fun c => c <> backslash) s).
  { apply Forall_forall. intros c Hin ->. apply Hs. assumption. }
  split; [|apply convertReplExpr_plain; assumption].
  unfold convertReplExpr.
  replace (length (s ++ t)) with (length t + length s)%nat at 1
    by (rewrite length_app; lia).
  rewrite (convert_plain_run W s t HF (length s) 0 (length t) []) by lia.
  cbn [skipn app]. rewrite length_app.
  replace (length s) with (length s + 0)%nat at 2 by lia.
  replace s with (s ++ []) at 4 by apply app_nil_r.
  apply (for_loop_shift _ (convert_body W (s ++ t)) (convert_body W t)
           (length s) (length t) (app s)).
  intros i acc Hi. apply convert_body_shift.
Qed.

Lemma convertReplExpr_plain_prefix_witness :
  convertReplExpr utf8_two_bytes (str "ab" ++ str "\n")
    = option_map (app (str "ab")) (convertReplExpr utf8_two_bytes (str "\n"))
  /\ convertReplExpr utf8_two_bytes (str "ab") = Some (str "ab").
Proof.
  apply convertReplExpr_plain_prefix.
  simpl. intros [Hin | [Hin | []]]; discriminate.
Defined.

(** X11: a backslash followed by one of the letters [a b f n r t v] expands
    to the control character of that letter, and an escaped backslash to two
    backslashes; the rest of the template is expanded as on its own. *)
Theorem convertReplExpr_escape_letters :
  forall W t,
    convertReplExpr W (str "\a" ++ t) = option_map (cons (ascii_of_nat 7)) (convertReplExpr W t)
    /\ convertReplExpr W (str "\b" ++ t) = option_map (cons (ascii_of_nat 8)) (convertReplExpr W t)
    /\ convertReplExpr W (str "\f" ++ t) = option_map (cons (ascii_of_nat 12)) (convertReplExpr W t)
    /\ convertReplExpr W (str "\n" ++ t) = option_map (cons (ascii_of_nat 10)) (convertReplExpr W t)
    /\ convertReplExpr W (str "\r" ++ t) = option_map (cons (ascii_of_nat 13)) (convertReplExpr W t)
    /\ convertReplExpr W (str "\t" ++ t) = option_map (cons (ascii_of_nat 9)) (convertReplExpr W t)
    /\ convertReplExpr W (str "\v" ++ t) = option_map (cons (ascii_of_nat 11)) (convertReplExpr W t)
    /\ convertReplExpr W (str "\\" ++ t) = option_map (app (str "\\")) (convertReplExpr W t).
Proof.
  intros W t.
  repeat split;
    match goal with
    | |- convertReplExpr _ _ = option_map (cons ?c) _ =>
        apply (convertReplExpr_first_step W _ t [c]); [reflexivity|discriminate]
    | |- convertReplExpr _ _ = option_map (app ?o) _ =>
        apply (convertReplExpr_first_step W _ t o); [reflexivity|discriminate]
    end.
Qed.

Lemma digit_1_9 :
  forall c, is_between "1" "9" c = true -> In c (str "123456789").
Proof.
  intros [[] [] [] [] [] [] [] []]; vm_compute; intros Hc; try discriminate; tauto.
Qed.

Lemma other_escape :
  forall c, ~ In c (str "abfnrtv\xu123456789") ->
    forall W t, convert_body W (backslash :: c :: t) 0 [] = (1%nat, [c]).
Proof.
  intros c Hc W t. unfold convert_body. cbn [at_ nth].
  change (Ascii.eqb backslash (ch "\")) with true. cbv iota.
  destruct (is_between "1" "9" c) eqn:Hd.
  { exfalso. apply digit_1_9 in Hd. apply Hc.
    change (str "abfnrtv\xu123456789") with (str "abfnrtv\xu" ++ str "123456789").
    apply in_or_app. right. assumption. }
  assert (Hne : forall x, In x (str "abfnrtv\xu") -> Ascii.eqb c x = false).
  { intros x Hx. apply Ascii.eqb_neq. intros ->. apply Hc.
    change (str "abfnrtv\xu123456789") with (str "abfnrtv\xu" ++ str "123456789").
    apply in_or_app. left. assumption. }
  rewrite !Hne by (simpl; tauto). reflexivity.
Qed.

(** X12: a backslash followed by a digit from 1 to 9 expands to [$] and the
    digit; followed by any character that is no escape letter, no [x], no [u]
    and no such digit (the digit 0 among them) it expands to that character
    alone. *)
Theorem convertReplExpr_backslash_digit :
  forall W c t,
    (In c (str "123456789") ->
     convertReplExpr W (backslash :: c :: t)
     = option_map (app [ch "$"; c]) (convertReplExpr W t))
    /\ (~ In c (str "abfnrtv\xu123456789") ->
        convertReplExpr W (backslash :: c :: t) = option_map (cons c) (convertReplExpr W t)).
Proof.
  intros W c t. split.
  - intros Hc.
    apply (convertReplExpr_first_step W [backslash; c] t [ch "$"; c]); [|discriminate].
    simpl in Hc.
    repeat (destruct Hc as [<- | Hc]; [reflexivity|]). contradiction.
  - intros Hc.
    apply (convertReplExpr_first_step W [backslash; c] t [c]); [|discriminate].
    apply other_escape. assumption.
Qed.

Lemma convertReplExpr_backslash_digit_witness :
  convertReplExpr utf8_two_bytes (backslash :: ch "1" :: str "x")
    = option_map (app [ch "$"; ch "1"]) (convertReplExpr utf8_two_bytes (str "x"))
  /\ convertReplExpr utf8_two_bytes (backslash :: ch "0" :: str "x")
     = option_map (cons (ch "0")) (convertReplExpr utf8_two_bytes (str "x")).
Proof.
  split.
  - apply (proj1 (convertReplExpr_backslash_digit utf8_two_bytes (ch "1") (str "x"))).
    simpl. tauto.
  - apply (proj2 (convertReplExpr_backslash_digit utf8_two_bytes (ch "0") (str "x"))).
    simpl. intros Hin.
    repeat (destruct Hin as [Hin | Hin]; [discriminate|]). contradiction.
Defined.



(** ** The substitution loop, token by token *)

Lemma subst_body_shift :
  forall doc region p t a j buf,
    subst_body doc region (p ++ t) (length p + j) (a ++ buf)
    = ((length p + fst (subst_body doc region t j buf))%nat,
       a ++ snd (subst_body doc region t j buf)).
Proof.
  intros doc region p t a j buf. unfold subst_body.
  rewrite !plus_n_Sm, !at_app_shift.
  repeat match goal with
         | |- context [if ?b then _ else _] => destruct b
         end; simpl; rewrite ?app_assoc; reflexivity.
Qed.

Lemma substitute_loop_first_step :
  forall doc region p t out,
    subst_body doc region (p ++ t) 0 [] = ((length p - 1)%nat, out) -> p <> [] ->
    substitute_loop doc region (p ++ t)
    = option_map (app out) (substitute_loop doc region t).
Proof.
  intros doc region p t out Hbody Hp. unfold substitute_loop.
  destruct p as [|x p]; [congruence|].
  rewrite length_app. cbn [length]. cbn [for_loop plus].
  assert (Hlt : (0 <? S (length p + length t))%nat = true) by reflexivity.
  rewrite Hlt. cbn [length] in Hbody. rewrite Hbody.
  replace (S (S (length p) - 1)) with (length (x :: p) + 0)%nat by (simpl; lia).
  replace (S (length p + length t)) with (length (x :: p) + length t)%nat by (simpl; lia).
  replace out with (out ++ []) at 1 by apply app_nil_r.
  rewrite (for_loop_shift _ (subst_body doc region ((x :: p) ++ t)) (subst_body doc region t)
             (length (x :: p)) (length t) (app out)).
  - f_equal. apply for_loop_enough; [apply subst_body_advances|lia|lia].
  - intros i acc Hi. apply subst_body_shift.
Qed.

Lemma substitute_loop_returns :
  forall doc region raw, exists out, substitute_loop doc region raw = Some out.
Proof.
  intros doc region raw. unfold substitute_loop.
  apply for_loop_total; [apply subst_body_advances|lia].
Qed.

Lemma substitute_loop_char :
  forall doc region c t,
    c <> ch "$" -> c <> backslash ->
    substitute_loop doc region (c :: t) = option_map (cons c) (substitute_loop doc region t).
Proof.
  intros doc region c t Hd Hb.
  apply (substitute_loop_first_step doc region [c] t [c]); [|discriminate].
  unfold subst_body. cbn [app at_ nth].
  apply Ascii.eqb_neq in Hd. apply Ascii.eqb_neq in Hb.
  unfold backslash in Hb. rewrite Hd, Hb. reflexivity.
Qed.

Lemma substitute_loop_plain :
  forall doc region s t,
    ~ In (ch "$") s -> ~ In backslash s ->
    substitute_loop doc region (s ++ t) = option_map (app s) (substitute_loop doc region t).
Proof.
  intros doc region s t; induction s as [|c s IH]; intros Hd Hb.
  - simpl. destruct (substitute_loop doc region t); reflexivity.
  - cbn [app]. rewrite substitute_loop_char.
    + rewrite IH.
      * destruct (substitute_loop doc region t); reflexivity.
      * intros Hin. apply Hd. right. assumption.
      * intros Hin. apply Hb. right. assumption.
    + intros ->. apply Hd. left. reflexivity.
    + intros ->. apply Hb. left. reflexivity.
Qed.

Lemma substitute_loop_group :
  forall doc region m d t,
    (m = ch "$" \/ m = backslash) ->
    is_between "0" "9" d = true -> code d - code (ch "0") < num_regs region ->
    substitute_loop doc region (m :: d :: t)
    = option_map (app (group_text doc region (code d - code (ch "0"))))
        (substitute_loop doc region t).
Proof.
  intros doc region m d t Hm Hd Hn.
  apply (substitute_loop_first_step doc region [m; d] t); [|discriminate].
  unfold subst_body. cbn [app at_ nth].
  assert (Hmark : Ascii.eqb m (ch "$") || Ascii.eqb m (ch "\") = true)
    by (destruct Hm as [-> | ->]; reflexivity).
  apply Z.ltb_lt in Hn. rewrite Hmark, Hd, Hn. reflexivity.
Qed.

(** X14: in the substitution loop a [$] or a backslash followed by the digit
    of a group of the region gives the bytes of that group, read from the
    document; a backslash followed by a character that is no digit gives one
    backslash and skips that character; a [$] followed by a character that is
    no digit is copied; any other character is copied.  The rest of the
    template is walked as on its own. *)
Theorem substitute_loop_tokens :
  forall doc region m d c t,
    (m = ch "$" \/ m = backslash) ->
    (is_between "0" "9" d = true -> code d - code (ch "0") < num_regs region ->
     substitute_loop doc region (m :: d :: t)
     = option_map (app (group_text doc region (code d - code (ch "0"))))
         (substitute_loop doc region t))
    /\ (is_between "0" "9" c = false ->
        substitute_loop doc region (backslash :: c :: t)
        = option_map (cons backslash) (substitute_loop doc region t))
    /\ (is_between "0" "9" c = false ->
        substitute_loop doc region (ch "$" :: c :: t)
        = option_map (cons (ch "$")) (substitute_loop doc region (c :: t)))
    /\ (c <> ch "$" -> c <> backslash ->
        substitute_loop doc region (c :: t)
        = option_map (cons c) (substitute_loop doc region t)).
Proof.
  intros doc region m d c t Hm. split; [|split; [|split]].
  - intros Hd Hn. apply substitute_loop_group; assumption.
  - intros Hc.
    apply (substitute_loop_first_step doc region [backslash; c] t [backslash]); [|discriminate].
    unfold subst_body. cbn [app at_ nth].
    change (Ascii.eqb backslash (ch "$") || Ascii.eqb backslash (ch "\")) with true.
    change (Ascii.eqb backslash (ch "\")) with true.
    rewrite Hc. reflexivity.
  - intros Hc.
    apply (substitute_loop_first_step doc region [ch "$"] (c :: t) [ch "$"]); [|discriminate].
    unfold subst_body. cbn [app at_ nth].
    change (Ascii.eqb (ch "$") (ch "$") || Ascii.eqb (ch "$") (ch "\")) with true.
    change (Ascii.eqb (ch "$") (ch "\")) with false.
    rewrite Hc. reflexivity.
  - apply substitute_loop_char.
Qed.

Lemma substitute_loop_tokens_witness :
  substitute_loop demo_doc (m_Region (after_find "foo")) (str "$0-")
    = option_map (app (str "foo")) (substitute_loop demo_doc (m_Region (after_find "foo")) (str "-"))
  /\ substitute_loop demo_doc (m_Region (after_find "foo")) (str "\\-")
     = option_map (cons backslash)
         (substitute_loop demo_doc (m_Region (after_find "foo")) (str "-"))
  /\ substitute_loop demo_doc (m_Region (after_find "foo")) (str "$a-")
     = option_map (cons (ch "$"))
         (substitute_loop demo_doc (m_Region (after_find "foo")) (str "a-"))
  /\ substitute_loop demo_doc (m_Region (after_find "foo")) (str "a-")
     = option_map (cons (ch "a"))
         (substitute_loop demo_doc (m_Region (after_find "foo")) (str "-")).
Proof.
  destruct (substitute_loop_tokens demo_doc (m_Region (after_find "foo")) (ch "$") (ch "0")
              backslash (str "-") (or_introl eq_refl)) as (H1 & H2 & _ & _).
  destruct (substitute_loop_tokens demo_doc (m_Region (after_find "foo")) (ch "$") (ch "0")
              (ch "a") (str "-") (or_introl eq_refl)) as (_ & _ & H3 & H4).
  split; [|split; [|split]].
  - apply H1; vm_compute; reflexivity.
  - apply H2. reflexivity.
  - apply H3. reflexivity.
  - apply H4; discriminate.
Defined.

(** ** SubstituteByPosition as a whole *)

Lemma SubstituteByPosition_active :
  forall (E : OnigEngine) W (st : OniguRegExEngine E) doc text n,
    0 <= m_MatchPos st -> 0 <= n ->
    SubstituteByPosition W st doc text n
    = (raw <- convertReplExpr W (firstn (Z.to_nat n) text) ;;
       out <- substitute_loop doc (m_Region st) raw ;;
       Some (Some out, Z.of_nat (length out), set_SubstBuffer st out)).
Proof.
  intros E W st doc text n Hpos Hn. unfold SubstituteByPosition.
  destruct (m_MatchPos st <? 0) eqn:Hlt; [apply Z.ltb_lt in Hlt; lia|].
  destruct (n <? 0) eqn:Hneg; [apply Z.ltb_lt in Hneg; lia|].
  reflexivity.
Qed.

(** X15: on a template length that is not negative and not beyond the
    characters of [text], [SubstituteByPosition] returns.  It returns a null
    pointer exactly when the stored match offset is negative, with [*length]
    set to -1 and the instance as it was; otherwise it returns its buffer and
    the length of that buffer.  It changes no member but [m_SubstBuffer], and
    a second call with the same arguments returns the same.  The null result
    comes before the template is read, so it is given for every length; with
    a match stored and a negative length the call does not return. *)
Theorem SubstituteByPosition_frame :
  forall (E : OnigEngine) W (st : OniguRegExEngine E) doc text n,
    (0 <= n <= Z.of_nat (length text) ->
     exists r l st',
       SubstituteByPosition W st doc text n = Some (r, l, st')
       /\ (r = None <-> m_MatchPos st < 0)
       /\ (r = None -> l = -1 /\ st' = st)
       /\ (forall out, r = Some out -> l = Z.of_nat (length out) /\ m_SubstBuffer st' = out)
       /\ m_RegExprStrg st' = m_RegExprStrg st
       /\ m_CmplOptions st' = m_CmplOptions st
       /\ m_RegExpr st' = m_RegExpr st
       /\ m_Region st' = m_Region st
       /\ m_ErrorInfo st' = m_ErrorInfo st
       /\ m_MatchPos st' = m_MatchPos st
       /\ m_MatchLen st' = m_MatchLen st
       /\ SubstituteByPosition W st' doc text n = Some (r, l, st'))
    /\ (m_MatchPos st < 0 -> SubstituteByPosition W st doc text n = Some (None, -1, st))
    /\ (0 <= m_MatchPos st -> n < 0 -> SubstituteByPosition W st doc text n = None).
Proof.
  intros E W st doc text n. split; [|split].
  - intros Hn.
    destruct (Z.lt_ge_cases (m_MatchPos st) 0) as [Hneg | Hpos].
    + exists None, (-1), st.
      rewrite (SubstituteByPosition_negative_MatchPos E W st doc text n Hneg).
      split; [reflexivity|]. split; [split; intros; [assumption|reflexivity]|].
      split; [intros _; split; reflexivity|].
      split; [intros out Hout; discriminate|].
      repeat (split; [reflexivity|]). reflexivity.
    + destruct (convertReplExpr_total W (firstn (Z.to_nat n) text)) as [raw Hraw].
      destruct (substitute_loop_returns doc (m_Region st) raw) as [out Hout].
      exists (Some out), (Z.of_nat (length out)), (set_SubstBuffer st out).
      rewrite !SubstituteByPosition_active by (simpl; lia).
      cbn [m_Region set_SubstBuffer]. rewrite Hraw. cbn [bind]. rewrite Hout. cbn [bind].
      split; [reflexivity|]. split; [split; intros Hn'; [discriminate|lia]|].
      split; [intros Hnone; discriminate|].
      split; [intros out' Heq; inversion Heq; subst; split; reflexivity|].
      repeat (split; [reflexivity|]). reflexivity.
  - apply SubstituteByPosition_negative_MatchPos.
  - intros Hpos Hn. unfold SubstituteByPosition.
    destruct (m_MatchPos st <? 0) eqn:Hlt; [apply Z.ltb_lt in Hlt; lia|].
    destruct (n <? 0) eqn:Hneg; [reflexivity|apply Z.ltb_ge in Hneg; lia].
Qed.

Lemma SubstituteByPosition_frame_witness :
  (exists r l st',
     SubstituteByPosition utf8_two_bytes (after_find "foo") demo_doc (str "<$0>") 4
       = Some (r, l, st')
     /\ (r = None <-> m_MatchPos (after_find "foo") < 0)
     /\ (forall out, r = Some out -> l = Z.of_nat (length out) /\ m_SubstBuffer st' = out))
  /\ SubstituteByPosition utf8_two_bytes (after_find "bar") demo_doc (str "<$0>") (-1)
     = Some (None, -1, after_find "bar")
  /\ SubstituteByPosition utf8_two_bytes (after_find "foo") demo_doc (str "<$0>") (-1) = None.
Proof.
  split; [|split].
  - destruct (SubstituteByPosition_frame (literal_engine onigmo_h) utf8_two_bytes
                (after_find "foo") demo_doc (str "<$0>") 4) as (H1 & _ & _).
    destruct H1 as (r & l & st' & HS & Hnull & _ & Hout & _); [simpl; lia|].
    exists r, l, st'. split; [exact HS|]. split; [exact Hnull|exact Hout].
  - destruct (SubstituteByPosition_frame (literal_engine onigmo_h) utf8_two_bytes
                (after_find "bar") demo_doc (str "<$0>") (-1)) as (_ & H2 & _).
    apply H2. vm_compute. reflexivity.
  - destruct (SubstituteByPosition_frame (literal_engine onigmo_h) utf8_two_bytes
                (after_find "foo") demo_doc (str "<$0>") (-1)) as (_ & _ & H3).
    apply H3; [vm_compute; discriminate|lia].
Defined.

(** X16: with an active match a template that contains neither [$] nor a
    backslash is returned as it is. *)
Theorem SubstituteByPosition_plain_template :
  forall (E : OnigEngine) W (st : OniguRegExEngine E) doc text,
    0 <= m_MatchPos st ->
    ~ In (ch "$") text -> ~ In backslash text ->
    SubstituteByPosition W st doc text (Z.of_nat (length text))
    = Some (Some text, Z.of_nat (length text), set_SubstBuffer st text).
Proof.
  intros E W st doc text Hpos Hd Hb.
  rewrite SubstituteByPosition_active by (assumption || lia).
  rewrite Nat2Z.id, firstn_all.
  rewrite (convertReplExpr_plain W text (not_in_Forall backslash text Hb)). simpl.
  pose proof (substitute_loop_plain doc (m_Region st) text [] Hd Hb) as Hloop.
  rewrite app_nil_r in Hloop. rewrite Hloop.
  change (substitute_loop doc (m_Region st) []) with (Some (@nil ascii)).
  simpl. rewrite app_nil_r. reflexivity.
Qed.

Lemma SubstituteByPosition_plain_template_witness :
  SubstituteByPosition utf8_two_bytes (after_find "foo") demo_doc (str "bar")
    (Z.of_nat (length (str "bar")))
  = Some (Some (str "bar"), Z.of_nat (length (str "bar")),
          set_SubstBuffer (after_find "foo") (str "bar")).
Proof.
  apply SubstituteByPosition_plain_template.
  - vm_compute. discriminate.
  - simpl. intros Hin. repeat (destruct Hin as [Hin | Hin]; [discriminate|]). contradiction.
  - simpl. intros Hin. repeat (destruct Hin as [Hin | Hin]; [discriminate|]). contradiction.
Defined.

(** X17: with an active match, a template made of a text, a [$] with the
    digit of a group of the region, and a text, where neither text contains
    [$] or a backslash, gives the first text, the bytes of the group and the
    second text. *)
Theorem SubstituteByPosition_group_reference :
  forall (E : OnigEngine) W (st : OniguRegExEngine E) doc s1 d s2,
    0 <= m_MatchPos st ->
    ~ In (ch "$") s1 -> ~ In backslash s1 ->
    ~ In (ch "$") s2 -> ~ In backslash s2 ->
    is_between "0" "9" d = true ->
    code d - code (ch "0") < num_regs (m_Region st) ->
    let text := s1 ++ ch "$" :: d :: s2 in
    let out := s1 ++ group_text doc (m_Region st) (code d - code (ch "0")) ++ s2 in
    SubstituteByPosition W st doc text (Z.of_nat (length text))
    = Some (Some out, Z.of_nat (length out), set_SubstBuffer st out).
Proof.
  intros E W st doc s1 d s2 Hpos Hd1 Hb1 Hd2 Hb2 Hdig Hgrp text out.
  rewrite SubstituteByPosition_active by (assumption || lia).
  rewrite Nat2Z.id, firstn_all.
  assert (Hnb : ~ In backslash text).
  { unfold text. intros Hin. apply in_app_or in Hin. destruct Hin as [Hin | Hin];
      [exact (Hb1 Hin)|].
    destruct Hin as [Hin | [Hin | Hin]]; [discriminate| |exact (Hb2 Hin)].
    subst d. discriminate. }
  rewrite (convertReplExpr_plain W text (not_in_Forall backslash text Hnb)). simpl.
  unfold text. rewrite (substitute_loop_plain doc (m_Region st) s1 _ Hd1 Hb1).
  rewrite (substitute_loop_group doc (m_Region st) (ch "$") d s2 (or_introl eq_refl)
             Hdig Hgrp).
  pose proof (substitute_loop_plain doc (m_Region st) s2 [] Hd2 Hb2) as Hloop.
  rewrite app_nil_r in Hloop. rewrite Hloop.
  change (substitute_loop doc (m_Region st) []) with (Some (@nil ascii)).
  simpl. rewrite app_nil_r. reflexivity.
Qed.

Lemma SubstituteByPosition_group_reference_witness :
  SubstituteByPosition utf8_two_bytes (after_find "foo") demo_doc (str "<$0>") 4
  = Some (Some (str "<foo>"), 5, set_SubstBuffer (after_find "foo") (str "<foo>")).
Proof.
  apply (SubstituteByPosition_group_reference (literal_engine onigmo_h) utf8_two_bytes
           (after_find "foo") demo_doc (str "<") (ch "0") (str ">")).
  - vm_compute. discriminate.
  - simpl. intros [Hin | []]. discriminate.
  - simpl. intros [Hin | []]. discriminate.
  - simpl. intros [Hin | []]. discriminate.
  - simpl. intros [Hin | []]. discriminate.
  - reflexivity.
  - vm_compute. reflexivity.
Defined.

(** ** What FindText leaves in the instance *)

Lemma findprevious_loop_frame :
  forall (E : OnigEngine) docBytes rangeEnd opts fuel (st st' : OniguRegExEngine E)
         result b,
    findprevious_loop fuel st docBytes rangeEnd opts result b = Some st' ->
    m_RegExprStrg st' = m_RegExprStrg st
    /\ m_CmplOptions st' = m_CmplOptions st
    /\ m_RegExpr st' = m_RegExpr st
    /\ m_ErrorInfo st' = m_ErrorInfo st
    /\ m_SubstBuffer st' = m_SubstBuffer st
    /\ ((m_MatchPos st' = m_MatchPos st /\ m_MatchLen st' = m_MatchLen st)
        \/ 0 <= m_MatchPos st').
Proof.
  intros E docBytes rangeEnd opts fuel.
  induction fuel as [|fuel IH]; intros st st' result b Hloop; simpl in Hloop.
  - destruct ((0 <=? result) && (b <=? rangeEnd)); [discriminate|].
    inversion Hloop; subst. repeat split; try reflexivity. left. split; reflexivity.
  - destruct ((0 <=? result) && (b <=? rangeEnd)) eqn:Hcond.
    + destruct (onig_search E _ docBytes _ rangeEnd opts) as [r2 reg2].
      apply IH in Hloop. simpl in Hloop.
      destruct Hloop as (H1 & H2 & H3 & H4 & H5 & H6).
      repeat (split; [assumption|]). right.
      apply andb_true_iff in Hcond. destruct Hcond as [Hr _]. apply Z.leb_le in Hr.
      destruct H6 as [[Hp _] | Hp]; lia.
    + inversion Hloop; subst. repeat split; try reflexivity. left. split; reflexivity.
Qed.

Lemma search_range_frame :
  forall (E : OnigEngine) fuel (st st' : OniguRegExEngine E) doc lo hi fp opts len r l,
    search_range fuel st doc lo hi fp opts len = Some (r, l, st') ->
    m_RegExprStrg st' = m_RegExprStrg st
    /\ m_CmplOptions st' = m_CmplOptions st
    /\ m_RegExpr st' = m_RegExpr st
    /\ m_SubstBuffer st' = m_SubstBuffer st
    /\ ((r = -3 /\ l = len /\ m_MatchPos st' = -1
         /\ fst (onig_search E (m_RegExpr st) (bytes doc) lo hi opts) < ONIG_MISMATCH
         /\ m_ErrorInfo st'
            = onig_error_code_to_str E
                (fst (onig_search E (m_RegExpr st) (bytes doc) lo hi opts)) None)
        \/ (r = -1 /\ l = 0 /\ m_MatchPos st' = -1 /\ m_MatchLen st' = 0
            /\ m_ErrorInfo st' = m_ErrorInfo st)
        \/ (0 <= r /\ m_MatchPos st' = r /\ m_MatchLen st' = l
            /\ m_ErrorInfo st' = m_ErrorInfo st)).
Proof.
  intros E fuel st st' doc lo hi fp opts len r l Hs.
  unfold search_range in Hs. simpl in Hs.
  destruct (onig_search E (m_RegExpr st) (bytes doc) lo hi opts) as [result region] eqn:Hsearch.
  simpl. destruct (result <? ONIG_MISMATCH) eqn:Hfault.
  - inversion Hs; subst. simpl. repeat (split; [reflexivity|]). left.
    apply Z.ltb_lt in Hfault. repeat split; try reflexivity. assumption.
  - destruct fp.
    + destruct (findprevious_loop fuel _ (bytes doc) hi opts result lo) as [st2|] eqn:Hloop;
        simpl in Hs; [|discriminate].
      inversion Hs; subst. apply findprevious_loop_frame in Hloop. simpl in Hloop.
      destruct Hloop as (H1 & H2 & H3 & H4 & H5 & H6).
      repeat (split; [assumption|]). right.
      destruct H6 as [[Hp Hl] | Hp].
      * left. unfold ONIG_MISMATCH in Hp. auto.
      * right. auto.
    + destruct ((0 <=? result) && (lo <=? hi)) eqn:Hcond; simpl in Hs; inversion Hs; subst; simpl.
      * repeat (split; [reflexivity|]). right. right.
        apply andb_true_iff in Hcond. destruct Hcond as [Hr _]. apply Z.leb_le in Hr.
        auto.
      * repeat (split; [reflexivity|]). right. left. auto.
Qed.

(** X18: on a pattern that is not empty [FindText] returns -2, -3, -1 or an
    offset that is not negative.  With -2 and -3 [*length] is left as it
    was; with -1 it is 0 and the stored match is unset; with an offset the
    stored match is that offset and the length returned.  Afterwards
    [SubstituteByPosition] returns a null pointer after -3 and -1, whatever
    the template and its length, and after an offset it returns a buffer for
    every template whose length is not negative and not beyond the
    characters of [text]. *)
Theorem FindText_return_values :
  forall (H : OnigOptions) (E : OnigEngine) fuel (st st' : OniguRegExEngine E) doc
         minPos maxPos c p cs word ws flags len r l,
    FindText H fuel st doc minPos maxPos (Some (c :: p)) cs word ws flags len
      = Some (r, l, st') ->
    ((r = -2 /\ l = len)
     \/ (r = -3 /\ l = len /\ m_MatchPos st' = -1)
     \/ (r = -1 /\ l = 0 /\ m_MatchPos st' = -1 /\ m_MatchLen st' = 0)
     \/ (0 <= r /\ m_MatchPos st' = r /\ m_MatchLen st' = l))
    /\ (r = -3 \/ r = -1 ->
        forall W d text n, SubstituteByPosition W st' d text n = Some (None, -1, st'))
    /\ (0 <= r ->
        forall W d text n, 0 <= n <= Z.of_nat (length text) -> exists out,
          SubstituteByPosition W st' d text n
          = Some (Some out, Z.of_nat (length out), set_SubstBuffer st' out)).
Proof.
  intros H E fuel st st' doc minPos maxPos c p cs word ws flags len r l HF.
  assert (Hcases : (r = -2 /\ l = len)
     \/ (r = -3 /\ l = len /\ m_MatchPos st' = -1)
     \/ (r = -1 /\ l = 0 /\ m_MatchPos st' = -1 /\ m_MatchLen st' = 0)
     \/ (0 <= r /\ m_MatchPos st' = r /\ m_MatchLen st' = l)).
  { unfold FindText in HF.
    destruct (search_bounds doc minPos maxPos) as [[lo hi] fp].
    destruct (translateRegExpr _ _ _ _ _ _) as [[text opts]|]; simpl in HF; [|discriminate].
    destruct (if bReCompile st text opts then recompile st text opts else inl st) as [st1|st1].
    - apply search_range_frame in HF.
      destruct HF as (_ & _ & _ & _ & [Hc | [Hc | Hc]]).
      + right. left. tauto.
      + right. right. left. tauto.
      + right. right. right. tauto.
    - inversion HF; subst. left. auto. }
  split; [exact Hcases|]. split.
  - intros Hr W d text n. apply SubstituteByPosition_negative_MatchPos.
    destruct Hcases as [[Hc _] | [(_ & _ & Hc) | [(_ & _ & Hc & _) | (Hc & _)]]]; lia.
  - intros Hr W d text n Hn.
    assert (Hpos : 0 <= m_MatchPos st').
    { destruct Hcases as [[Hc _] | [(Hc & _) | [(Hc & _) | (_ & Hc & _)]]]; lia. }
    destruct (SubstituteByPosition_returns_buffer E W st' d text n Hpos ltac:(lia))
      as (raw & out & _ & _ & HS).
    exists out. exact HS.
Qed.

Lemma FindText_return_values_witness :
  ((3 = -2 /\ 3 = 0)
   \/ (3 = -3 /\ 3 = 0 /\ m_MatchPos (after_find "foo") = -1)
   \/ (3 = -1 /\ 3 = 0 /\ m_MatchPos (after_find "foo") = -1
       /\ m_MatchLen (after_find "foo") = 0)
   \/ (0 <= 3 /\ m_MatchPos (after_find "foo") = 3 /\ m_MatchLen (after_find "foo") = 3))
  /\ (3 = -3 \/ 3 = -1 ->
      forall W d text n,
        SubstituteByPosition W (after_find "foo") d text n
        = Some (None, -1, after_find "foo"))
  /\ (0 <= 3 ->
      forall W d text n, 0 <= n <= Z.of_nat (length text) -> exists out,
        SubstituteByPosition W (after_find "foo") d text n
        = Some (Some out, Z.of_nat (length out), set_SubstBuffer (after_find "foo") out)).
Proof.
  assert (HF : FindText onigmo_h 0 fresh_instance demo_doc 0 13 (Some (ch "f" :: str "oo"))
                 true false false 0 0
               = Some (3, 3, after_find "foo")).
  { vm_compute. reflexivity. }
  exact (FindText_return_values onigmo_h (literal_engine onigmo_h) 0 fresh_instance
           (after_find "foo") demo_doc 0 13 (ch "f") (str "oo")
           true false false 0 0 3 3 HF).
Defined.

(** X19: when [FindText] returns on a pattern that is not empty, the cached
    text and options are the translated text and the options of that
    request, whatever it returned, and [m_SubstBuffer] is as before; a
    request that finds its text and options cached with a handle keeps the
    handle; and when the call leaves a handle, the same request again does
    not recompile. *)
Theorem FindText_cache :
  forall (H : OnigOptions) (E : OnigEngine) fuel (st st' : OniguRegExEngine E) doc
         minPos maxPos c p cs word ws flags len lo hi fp text opts r l,
    search_bounds doc minPos maxPos = (lo, hi, fp) ->
    translateRegExpr H (c :: p) word ws (eolMode doc)
      (search_options H flags cs lo hi (Length doc)) = Some (text, opts) ->
    FindText H fuel st doc minPos maxPos (Some (c :: p)) cs word ws flags len
      = Some (r, l, st') ->
    m_RegExprStrg st' = text
    /\ m_CmplOptions st' = opts
    /\ m_SubstBuffer st' = m_SubstBuffer st
    /\ (bReCompile st text opts = false -> m_RegExpr st' = m_RegExpr st)
    /\ (m_RegExpr st' <> None -> bReCompile st' text opts = false).
Proof.
  intros H E fuel st st' doc minPos maxPos c p cs word ws flags len lo hi fp text opts r l
         Hb Ht HF.
  assert (Hmain : m_RegExprStrg st' = text /\ m_CmplOptions st' = opts
                  /\ m_SubstBuffer st' = m_SubstBuffer st
                  /\ (bReCompile st text opts = false -> m_RegExpr st' = m_RegExpr st)).
  { unfold FindText in HF. rewrite Hb, Ht in HF. simpl in HF.
    destruct (bReCompile st text opts) eqn:Hre.
    - unfold recompile in HF. simpl in HF.
      destruct (onig_new E text opts) as [[res reg] einfo].
      destruct (negb (res =? 0)).
      + inversion HF; subst. simpl. repeat split; try reflexivity. discriminate.
      + apply search_range_frame in HF. simpl in HF.
        destruct HF as (H1 & H2 & H3 & H4 & _).
        repeat split; try assumption. discriminate.
    - apply search_range_frame in HF.
      destruct HF as (H1 & H2 & H3 & H4 & _).
      unfold bReCompile in Hre.
      apply orb_false_iff in Hre. destruct Hre as [Hre Hs].
      apply orb_false_iff in Hre. destruct Hre as [_ Ho].
      apply negb_false_iff in Hs. apply str_eqb_eq in Hs.
      apply negb_false_iff in Ho. apply Z.eqb_eq in Ho.
      repeat split; try congruence. }
  destruct Hmain as (H1 & H2 & H3 & H4).
  repeat (split; [assumption|]).
  intros Hreg. unfold bReCompile.
  destruct (m_RegExpr st'); [|congruence].
  rewrite H1, H2, Z.eqb_refl, str_eqb_refl. reflexivity.
Qed.

Lemma FindText_cache_witness :
  m_RegExprStrg (after_find "foo") = str "foo"
  /\ m_CmplOptions (after_find "foo") = 320
  /\ m_SubstBuffer (after_find "foo") = m_SubstBuffer fresh_instance
  /\ (bReCompile fresh_instance (str "foo") 320 = false ->
      m_RegExpr (after_find "foo") = m_RegExpr fresh_instance)
  /\ (m_RegExpr (after_find "foo") <> None ->
      bReCompile (after_find "foo") (str "foo") 320 = false).
Proof.
  apply (FindText_cache onigmo_h (literal_engine onigmo_h) 0 fresh_instance
           (after_find "foo") demo_doc 0 13 (ch "f") (str "oo") true false false 0 0
           0 13 false (str "foo") 320 3 3).
  - reflexivity.
  - vm_compute. reflexivity.
  - vm_compute. reflexivity.
Defined.

(** ** The range and the options of a search *)

(** X20: the range of a search is the same for [minPos], [maxPos] in either
    order: it runs from the smaller to the larger of the two positions, once
    moved out of characters; the order decides the direction only, and equal
    positions give a forward search. *)
Theorem search_bounds_order :
  forall doc minPos maxPos,
    let a := MovePositionOutsideChar doc minPos 1 false in
    let b := MovePositionOutsideChar doc maxPos 1 false in
    search_bounds doc minPos maxPos = (Z.min a b, Z.max a b, b <? a)
    /\ fst (search_bounds doc maxPos minPos) = fst (search_bounds doc minPos maxPos)
    /\ Z.min a b <= Z.max a b.
Proof.
  intros doc minPos maxPos a b.
  assert (Hab : search_bounds doc minPos maxPos = (Z.min a b, Z.max a b, b <? a)).
  { unfold search_bounds. fold a. fold b.
    destruct (b <? a) eqn:Hlt;
      [apply Z.ltb_lt in Hlt; rewrite Z.min_r, Z.max_l by lia
      |apply Z.ltb_ge in Hlt; rewrite Z.min_l, Z.max_r by lia]; reflexivity. }
  assert (Hba : search_bounds doc maxPos minPos = (Z.min b a, Z.max b a, a <? b)).
  { unfold search_bounds. fold a. fold b.
    destruct (a <? b) eqn:Hlt;
      [apply Z.ltb_lt in Hlt; rewrite Z.min_r, Z.max_l by lia
      |apply Z.ltb_ge in Hlt; rewrite Z.min_l, Z.max_r by lia]; reflexivity. }
  split; [exact Hab|]. split; [|lia].
  rewrite Hab, Hba. simpl. rewrite Z.min_comm, Z.max_comm. reflexivity.
Qed.

Lemma land_lor_keeps :
  forall a b m, Z.land a m = m -> Z.land (Z.lor a b) m = m.
Proof.
  intros a b m Ha. apply Z.bits_inj'. intros n Hn.
  assert (Hbit : Z.testbit (Z.land a m) n = Z.testbit m n) by (rewrite Ha; reflexivity).
  rewrite Z.land_spec in Hbit. rewrite Z.land_spec, Z.lor_spec.
  destruct (Z.testbit a n), (Z.testbit b n), (Z.testbit m n); simpl in *; congruence.
Qed.

(** X21: the options of a search have the capture-group and the
    negate-single-line bits set; the ignore-case bits for a search that is
    not case sensitive; the dot-all bits when the flags ask for it; the
    not-beginning-of-line bits when the range does not start at 0 and the
    not-end-of-line bits when it does not end at the end of the document. *)
Theorem search_options_bits :
  forall H flags cs lo hi docLen,
    let o := search_options H flags cs lo hi docLen in
    Z.land o (ONIG_OPTION_CAPTURE_GROUP H) = ONIG_OPTION_CAPTURE_GROUP H
    /\ Z.land o (ONIG_OPTION_NEGATE_SINGLELINE H) = ONIG_OPTION_NEGATE_SINGLELINE H
    /\ (cs = false -> Z.land o (ONIG_OPTION_IGNORECASE H) = ONIG_OPTION_IGNORECASE H)
    /\ (Z.land flags (SCFIND_DOT_MATCH_ALL H) <> 0 ->
        Z.land o (ONIG_OPTION_DOTALL H) = ONIG_OPTION_DOTALL H)
    /\ (lo <> 0 -> Z.land o (ONIG_OPTION_NOTBOL H) = ONIG_OPTION_NOTBOL H)
    /\ (hi <> docLen -> Z.land o (ONIG_OPTION_NOTEOL H) = ONIG_OPTION_NOTEOL H).
Proof.
  intros H flags cs lo hi docLen o. unfold o, search_options, ONIG_OPTION_ON.
  repeat split.
  - do 3 apply land_lor_keeps. apply ONIG_OPTION_ON_sets.
  - do 4 apply land_lor_keeps. apply ONIG_OPTION_ON_sets.
  - intros ->. do 2 apply land_lor_keeps. apply ONIG_OPTION_ON_sets.
  - intros Hf. apply Z.eqb_neq in Hf. rewrite Hf. cbn [negb].
    do 5 apply land_lor_keeps. apply ONIG_OPTION_ON_sets.
  - intros Hlo. apply Z.eqb_neq in Hlo. rewrite Hlo. cbn [negb].
    apply land_lor_keeps. apply ONIG_OPTION_ON_sets.
  - intros Hhi. apply Z.eqb_neq in Hhi. rewrite Hhi. cbn [negb].
    apply ONIG_OPTION_ON_sets.
Qed.

Lemma search_options_bits_witness :
  Z.land (search_options onigmo_h 268435456 false 2 5 13) 1 = 1
  /\ Z.land (search_options onigmo_h 268435456 false 2 5 13) 4 = 4
  /\ Z.land (search_options onigmo_h 268435456 false 2 5 13) 512 = 512
  /\ Z.land (search_options onigmo_h 268435456 false 2 5 13) 1024 = 1024.
Proof.
  destruct (search_options_bits onigmo_h 268435456 false 2 5 13)
    as (_ & _ & H1 & H2 & H3 & H4).
  split; [apply H1; reflexivity|].
  split; [apply H2; vm_compute; discriminate|].
  split; [apply H3; lia|apply H4; lia].
Defined.

(** ** The region the substitution reads *)

Lemma findprevious_loop_region :
  forall (E : OnigEngine) docBytes rangeEnd opts fuel (st st' : OniguRegExEngine E)
         result b,
    findprevious_loop fuel st docBytes rangeEnd opts result b = Some st' ->
    st' = st
    \/ m_Region st'
       = snd (onig_search E (m_RegExpr st) docBytes
                (m_MatchPos st' + Z.max 1 (m_MatchLen st')) rangeEnd opts).
Proof.
  intros E docBytes rangeEnd opts fuel.
  induction fuel as [|fuel IH]; intros st st' result b Hloop; simpl in Hloop.
  - destruct ((0 <=? result) && (b <=? rangeEnd)); [discriminate|].
    inversion Hloop; subst. left. reflexivity.
  - destruct ((0 <=? result) && (b <=? rangeEnd)); [|inversion Hloop; subst; left; reflexivity].
    destruct (onig_search E (m_RegExpr st) docBytes
                (result + Z.max 1 (slot (end_ (m_Region st)) 0 - result)) rangeEnd opts)
      as [r2 reg2] eqn:Hs2.
    right. apply IH in Hloop. simpl in Hloop.
    destruct Hloop as [-> | Hreg]; [|exact Hreg].
    simpl. rewrite Hs2. reflexivity.
Qed.

Lemma FindText_forward_region :
  forall (H : OnigOptions) (E : OnigEngine) fuel (st st1 st' : OniguRegExEngine E) doc
         minPos maxPos c p cs word ws flags len lo hi text opts r l,
    search_bounds doc minPos maxPos = (lo, hi, false) ->
    translateRegExpr H (c :: p) word ws (eolMode doc)
      (search_options H flags cs lo hi (Length doc)) = Some (text, opts) ->
    prepared st text opts = Some st1 ->
    FindText H fuel st doc minPos maxPos (Some (c :: p)) cs word ws flags len
      = Some (r, l, st') ->
    0 <= r ->
    m_Region st' = snd (onig_search E (m_RegExpr st1) (bytes doc) lo hi opts)
    /\ m_MatchPos st' = r
    /\ l = slot (end_ (m_Region st')) 0 - r.
Proof.
  intros H E fuel st st1 st' doc minPos maxPos c p cs word ws flags len lo hi text opts
         r l Hb Ht Hprep HF Hr.
  rewrite (FindText_search_range H E fuel st st1 doc minPos maxPos c p cs word ws flags len
             lo hi false text opts Hb Ht Hprep) in HF.
  unfold search_range in HF. simpl in HF.
  destruct (onig_search E (m_RegExpr st1) (bytes doc) lo hi opts) as [result region].
  destruct (result <? ONIG_MISMATCH); [inversion HF; subst; lia|].
  destruct ((0 <=? result) && (lo <=? hi)); simpl in HF; inversion HF; subst; simpl.
  - repeat split; reflexivity.
  - simpl in Hr. unfold ONIG_MISMATCH in Hr. lia.
Qed.



(** X23: find, then substitute.  After a forward search that reports a
    match whose region has group 0 starting at the reported offset, the
    template [$0] gives the bytes of the match: the bytes of the document
    from [matchStart], [matchLength] of them. *)
Theorem FindText_then_substitute :
  forall (H : OnigOptions) (E : OnigEngine) W fuel (st st1 st' : OniguRegExEngine E) doc
         minPos maxPos c p cs word ws flags len lo hi text opts r l,
    search_bounds doc minPos maxPos = (lo, hi, false) ->
    translateRegExpr H (c :: p) word ws (eolMode doc)
      (search_options H flags cs lo hi (Length doc)) = Some (text, opts) ->
    prepared st text opts = Some st1 ->
    FindText H fuel st doc minPos maxPos (Some (c :: p)) cs word ws flags len
      = Some (r, l, st') ->
    0 <= r ->
    0 < num_regs (snd (onig_search E (m_RegExpr st1) (bytes doc) lo hi opts)) ->
    slot (beg (snd (onig_search E (m_RegExpr st1) (bytes doc) lo hi opts))) 0 = r ->
    SubstituteByPosition W st' doc (str "$0") 2
    = Some (Some (substr (bytes doc) (Z.to_nat r) (Z.to_nat l)),
            Z.of_nat (length (substr (bytes doc) (Z.to_nat r) (Z.to_nat l))),
            set_SubstBuffer st' (substr (bytes doc) (Z.to_nat r) (Z.to_nat l))).
Proof.
  intros H E W fuel st st1 st' doc minPos maxPos c p cs word ws flags len lo hi text opts
         r l Hb Ht Hprep HF Hr Hnum Hbeg.
  destruct (FindText_forward_region H E fuel st st1 st' doc minPos maxPos c p cs word ws
              flags len lo hi text opts r l Hb Ht Hprep HF Hr) as (Hreg & Hpos & Hl).
  rewrite SubstituteByPosition_active by lia.
  change (convertReplExpr W (firstn (Z.to_nat 2) (str "$0")))
    with (Some [ch "$"; ch "0"]).
  cbn [bind].
  rewrite (substitute_loop_group doc (m_Region st') (ch "$") (ch "0") [] (or_introl eq_refl)
             eq_refl);
    [|change (code (ch "0") - code (ch "0")) with 0; rewrite Hreg; exact Hnum].
  change (substitute_loop doc (m_Region st') []) with (Some (@nil ascii)).
  change (code (ch "0") - code (ch "0")) with 0.
  cbn [option_map bind]. rewrite app_nil_r.
  assert (HG : group_text doc (m_Region st') 0 = substr (bytes doc) (Z.to_nat r) (Z.to_nat l)).
  { unfold group_text, RangePointer. rewrite Hl.
    assert (Hb0 : slot (beg (m_Region st')) 0 = r) by (rewrite Hreg; exact Hbeg).
    rewrite Hb0. reflexivity. }
  rewrite HG. reflexivity.
Qed.

Lemma FindText_then_substitute_witness :
  SubstituteByPosition utf8_two_bytes (after_find "foo") demo_doc (str "$0") 2
  = Some (Some (substr (bytes demo_doc) (Z.to_nat 3) (Z.to_nat 3)),
          Z.of_nat (length (substr (bytes demo_doc) (Z.to_nat 3) (Z.to_nat 3))),
          set_SubstBuffer (after_find "foo")
            (substr (bytes demo_doc) (Z.to_nat 3) (Z.to_nat 3))).
Proof.
  apply (FindText_then_substitute onigmo_h (literal_engine onigmo_h) utf8_two_bytes 0
           fresh_instance compiled_foo (after_find "foo") demo_doc 0 13 (ch "f") (str "oo")
           true false false 0 0 0 13 (str "foo") 320 3 3).
  - reflexivity.
  - vm_compute. reflexivity.
  - vm_compute. reflexivity.
  - vm_compute. reflexivity.
  - lia.
  - vm_compute. reflexivity.
  - vm_compute. reflexivity.
Defined.

(** ** FindText returns *)

(** X24: [FindText] returns.  A forward search returns whatever the engine
    does and whatever number of iterations is allowed; a backward search
    returns within [rangeEnd + 1 - rangeBeg] iterations of the scan when the
    engine never reports a hit before the start of a search. *)
Theorem FindText_returns :
  forall (H : OnigOptions) (E : OnigEngine) fuel (st : OniguRegExEngine E) doc
         minPos maxPos pattern cs word ws flags len lo hi fp,
    search_bounds doc minPos maxPos = (lo, hi, fp) ->
    (fp = true ->
     (forall reg opts, hits_after_start E reg (bytes doc) opts lo hi)
     /\ (Z.to_nat (hi + 1 - lo) <= fuel)%nat) ->
    exists r l st',
      FindText H fuel st doc minPos maxPos pattern cs word ws flags len = Some (r, l, st').
Proof.
  intros H E fuel st doc minPos maxPos pattern cs word ws flags len lo hi fp Hb Hfp.
  destruct pattern as [[|c p]|]; [eexists _, _, _; reflexivity| |eexists _, _, _; reflexivity].
  unfold FindText. rewrite Hb.
  rewrite translateRegExpr_rules.
  destruct (apply_rules_total (rewrite_rules (word || ws) (eolMode doc))
              (word_prefix word ws ++ (c :: p) ++ word_suffix word ws)
              (rewrite_rules_nonempty _ _)) as [text Ht].
  rewrite Ht. simpl.
  destruct (if bReCompile st text _ then recompile st text _ else inl st) as [st1|st1];
    [|eexists _, _, _; reflexivity].
  unfold search_range. simpl.
  destruct (onig_search E (m_RegExpr st1) (bytes doc) lo hi _) as [result region] eqn:Hs.
  destruct (result <? ONIG_MISMATCH); [eexists _, _, _; reflexivity|].
  destruct fp.
  - destruct (Hfp eq_refl) as [Hc Hfuel].
    destruct (findprevious_loop_spec E (bytes doc) lo hi
                (eol_options H (eolMode doc) (search_options H flags cs lo hi (Length doc)))
                fuel (set_Region (set_match st1 ONIG_MISMATCH 0) region) result lo)
      as (st' & Hloop & _); try assumption; try lia.
    + apply Hc.
    + rewrite Hloop. simpl. eexists _, _, _. reflexivity.
  - destruct ((0 <=? result) && (lo <=? hi)); simpl; eexists _, _, _; reflexivity.
Qed.

Lemma FindText_returns_witness :
  exists r l st',
    FindText onigmo_h 14 fresh_instance demo_doc 13 0 (Some (str "o")) true false false 0 0
    = Some (r, l, st').
Proof.
  apply (FindText_returns onigmo_h (literal_engine onigmo_h) 14 fresh_instance demo_doc
           13 0 (Some (str "o")) true false false 0 0 0 13 true).
  - reflexivity.
  - intros _. split.
    + intros reg opts. apply literal_hits_after_start.
    + vm_compute. lia.
Defined.
